(** * Vibe Code: the workspace orchestrator and the AI gateway

    A shallow embedding of [src/src/types.ts], [src/services/geminiService.ts]
    and [src/App.tsx], and the properties of the workspace state that follow
    from the code.

    JavaScript strings are sequences of UTF-16 code units; they are modelled as
    [list N].  React state is one record; an event handler is a computation in
    a state-and-exception monad, and an [async] handler is cut at its [await]
    into the part that runs at once and the part that runs when the promise
    settles. *)

From Stdlib Require Import List NArith Lia Bool String Ascii PeanoNat.
From Stdlib Require Import DecimalString DecimalN DecimalPos.
Import ListNotations.

Set Implicit Arguments.
Set Warnings "-register-all".
Local Open Scope N_scope.

(* ================================================================== *)
(** ** JavaScript strings *)

Module JsString.

Definition jsstring := list N.

(** A literal: every character of the Rocq string is one code unit. *)
Definition js (s : string) : jsstring :=
  map N_of_ascii (list_ascii_of_string s).

(** A literal in which the apostrophe stands for the double quote (U+0022),
    for JSON text. *)
Definition jq (s : string) : jsstring :=
  map (fun c => if c =? 39 then 34 else c) (js s).

Definition nl : jsstring := [10].

(** [a === b] on strings. *)
Definition streq (a b : jsstring) : bool :=
  if list_eq_dec N.eq_dec a b then true else false.

(** A string is falsy exactly when it is empty. *)
Definition truthy (s : jsstring) : bool :=
  match s with [] => false | _ :: _ => true end.

(** [s.split(sep)] for a separator of one code unit. *)
Fixpoint split (sep : N) (s : jsstring) : list jsstring :=
  match s with
  | [] => [[]]
  | c :: r =>
      if c =? sep then [] :: split sep r
      else match split sep r with
           | h :: t => (c :: h) :: t
           | [] => [[c]]
           end
  end.

(** [a.pop()] as an expression: the last element, [undefined] on [[]]. *)
Fixpoint pop {A} (l : list A) : option A :=
  match l with
  | [] => None
  | [x] => Some x
  | _ :: r => pop r
  end.

(** [x || d] where [x] is a string or [undefined]. *)
Definition or_else (x : option jsstring) (d : jsstring) : jsstring :=
  match x with
  | Some s => if truthy s then s else d
  | None => d
  end.

(** Template-literal conversion of a non-negative integer [Number]. *)
Definition decimal (n : N) : jsstring :=
  js (NilZero.string_of_uint (N.to_uint n)).

(** Template-literal conversion of [string | null]. *)
Definition show_nullable (x : option jsstring) : jsstring :=
  match x with
  | Some s => s
  | None => js "null"
  end.

Definition unlines (l : list string) : jsstring :=
  List.concat (map (fun s => js s ++ nl) l).

End JsString.
Export JsString.

(* ================================================================== *)
(** ** JSON values and [JSON.parse] *)

Module Json.

(** A number keeps its literal: no claim below needs its double value.  An
    object keeps its members in source order; a property read takes the last
    binding of the key, as [JSON.parse] lets a later duplicate win. *)
Inductive json : Type :=
| JNull
| JBool (b : bool)
| JNumber (literal : jsstring)
| JString (s : jsstring)
| JArray (elements : list json)
| JObject (members : list (jsstring * json)).

Fixpoint get_member (k : jsstring) (members : list (jsstring * json)) : option json :=
  match members with
  | [] => None
  | (k', v) :: r =>
      match get_member k r with
      | Some w => Some w
      | None => if streq k' k then Some v else None
      end
  end.

Inductive presult (A : Type) : Type :=
| POk (a : A) (rest : jsstring)
| PSyntax
| PFuel.
Arguments PSyntax {A}.
Arguments PFuel {A}.

Definition is_ws (c : N) : bool :=
  (c =? 32) || (c =? 9) || (c =? 10) || (c =? 13).

Fixpoint skip_ws (s : jsstring) : jsstring :=
  match s with
  | c :: r => if is_ws c then skip_ws r else s
  | [] => []
  end.

Definition is_digit (c : N) : bool := (48 <=? c) && (c <=? 57).

Definition hexval (c : N) : option N :=
  if is_digit c then Some (c - 48)
  else if (97 <=? c) && (c <=? 102) then Some (c - 87)
  else if (65 <=? c) && (c <=? 70) then Some (c - 55)
  else None.

Definition hex4 (a b c d : N) : option N :=
  match hexval a, hexval b, hexval c, hexval d with
  | Some x, Some y, Some z, Some w => Some (((x * 16 + y) * 16 + z) * 16 + w)
  | _, _, _, _ => None
  end.

Definition escape (c : N) : option N :=
  if c =? 34 then Some 34        (* quotation mark *)
  else if c =? 92 then Some 92   (* reverse solidus *)
  else if c =? 47 then Some 47   (* solidus *)
  else if c =? 98 then Some 8    (* b: backspace *)
  else if c =? 102 then Some 12  (* f: form feed *)
  else if c =? 110 then Some 10  (* n: line feed *)
  else if c =? 114 then Some 13  (* r: carriage return *)
  else if c =? 116 then Some 9   (* t: tab *)
  else None.

(** The characters of a string after its opening quote, up to and including
    the closing quote. *)
Fixpoint parse_chars (s : jsstring) : option (jsstring * jsstring) :=
  match s with
  | [] => None
  | c :: r =>
      if c =? 34 then Some ([], r)
      else if c =? 92 then
        match r with
        | [] => None
        | e :: r' =>
            if e =? 117 then
              match r' with
              | h1 :: h2 :: h3 :: h4 :: r'' =>
                  match hex4 h1 h2 h3 h4, parse_chars r'' with
                  | Some u, Some (str, rest) => Some (u :: str, rest)
                  | _, _ => None
                  end
              | _ => None
              end
            else
              match escape e, parse_chars r' with
              | Some u, Some (str, rest) => Some (u :: str, rest)
              | _, _ => None
              end
        end
      else if c <? 32 then None
      else match parse_chars r with
           | Some (str, rest) => Some (c :: str, rest)
           | None => None
           end
  end.

Fixpoint span (p : N -> bool) (s : jsstring) : jsstring * jsstring :=
  match s with
  | c :: r => if p c then let (a, b) := span p r in (c :: a, b) else ([], s)
  | [] => ([], [])
  end.

Definition parse_int (s : jsstring) : option (jsstring * jsstring) :=
  match s with
  | d :: r =>
      if d =? 48 then Some ([48], r)
      else if is_digit d then let (ds, r') := span is_digit r in Some (d :: ds, r')
      else None
  | [] => None
  end.

(** One digit or more. *)
Definition digits1 (s : jsstring) : option (jsstring * jsstring) :=
  match span is_digit s with
  | ([], _) => None
  | (ds, r) => Some (ds, r)
  end.

Definition parse_frac (s : jsstring) : option (jsstring * jsstring) :=
  match s with
  | c :: r =>
      if c =? 46 then
        match digits1 r with
        | Some (ds, r') => Some (46 :: ds, r')
        | None => None
        end
      else Some ([], s)
  | [] => Some ([], [])
  end.

Definition exp_sign (s : jsstring) : jsstring * jsstring :=
  match s with
  | g :: r => if (g =? 43) || (g =? 45) then ([g], r) else ([], s)
  | [] => ([], [])
  end.

Definition parse_exp (s : jsstring) : option (jsstring * jsstring) :=
  match s with
  | c :: r =>
      if (c =? 101) || (c =? 69) then
        let (sign, r1) := exp_sign r in
        match digits1 r1 with
        | Some (ds, r') => Some (c :: sign ++ ds, r')
        | None => None
        end
      else Some ([], s)
  | [] => Some ([], [])
  end.

Definition minus_sign (s : jsstring) : jsstring * jsstring :=
  match s with
  | c :: r => if c =? 45 then ([45], r) else ([], s)
  | [] => ([], [])
  end.

Definition parse_number (s : jsstring) : option (jsstring * jsstring) :=
  let (sign, s1) := minus_sign s in
  match parse_int s1 with
  | Some (i, s2) =>
      match parse_frac s2 with
      | Some (f, s3) =>
          match parse_exp s3 with
          | Some (e, s4) => Some (sign ++ i ++ f ++ e, s4)
          | None => None
          end
      | None => None
      end
  | None => None
  end.

(** [expect lit s] strips the literal [lit] from the front of [s]. *)
Fixpoint expect (lit s : jsstring) : option jsstring :=
  match lit, s with
  | [], _ => Some s
  | a :: lit', b :: s' => if a =? b then expect lit' s' else None
  | _ :: _, [] => None
  end.

Definition of_option {A} (o : option (A * jsstring)) : presult A :=
  match o with
  | Some (a, r) => POk a r
  | None => PSyntax
  end.

Definition pmap {A B} (f : A -> B) (p : presult A) : presult B :=
  match p with
  | POk a r => POk (f a) r
  | PSyntax => PSyntax
  | PFuel => PFuel
  end.

(** Recursive descent over the grammar of ECMA-404.  The fuel bounds the
    nesting of calls; [fuel_enough] below shows that [JSON_parse] never runs
    out of it. *)
Fixpoint parse_value (fuel : nat) (s : jsstring) {struct fuel} : presult json :=
  match fuel with
  | O => PFuel
  | S f =>
      match skip_ws s with
      | [] => PSyntax
      | c :: r =>
          if c =? 91 then                                   (* [ *)
            match skip_ws r with
            | [] => PSyntax
            | c' :: r' =>
                if c' =? 93 then POk (JArray []) r'
                else pmap JArray (parse_elements f (c' :: r'))
            end
          else if c =? 123 then                             (* { *)
            match skip_ws r with
            | [] => PSyntax
            | c' :: r' =>
                if c' =? 125 then POk (JObject []) r'
                else pmap JObject (parse_members f (c' :: r'))
            end
          else if c =? 34 then pmap JString (of_option (parse_chars r))
          else if c =? 116 then
            of_option (option_map (pair (JBool true)) (expect (js "rue") r))
          else if c =? 102 then
            of_option (option_map (pair (JBool false)) (expect (js "alse") r))
          else if c =? 110 then
            of_option (option_map (pair JNull) (expect (js "ull") r))
          else if (c =? 45) || is_digit c then
            pmap JNumber (of_option (parse_number (c :: r)))
          else PSyntax
      end
  end
with parse_elements (fuel : nat) (s : jsstring) {struct fuel} : presult (list json) :=
  match fuel with
  | O => PFuel
  | S f =>
      match parse_value f s with
      | POk v rest =>
          match skip_ws rest with
          | [] => PSyntax
          | c :: r =>
              if c =? 44 then pmap (cons v) (parse_elements f r)
              else if c =? 93 then POk [v] r
              else PSyntax
          end
      | PSyntax => PSyntax
      | PFuel => PFuel
      end
  end
with parse_members (fuel : nat) (s : jsstring) {struct fuel}
  : presult (list (jsstring * json)) :=
  match fuel with
  | O => PFuel
  | S f =>
      match skip_ws s with
      | [] => PSyntax
      | q :: s1 =>
          if q =? 34 then
            match parse_chars s1 with
            | None => PSyntax
            | Some (k, s2) =>
                match skip_ws s2 with
                | [] => PSyntax
                | colon :: s3 =>
                    if colon =? 58 then
                      match parse_value f s3 with
                      | POk v rest =>
                          match skip_ws rest with
                          | [] => PSyntax
                          | c :: r =>
                              if c =? 44 then pmap (cons (k, v)) (parse_members f r)
                              else if c =? 125 then POk [(k, v)] r
                              else PSyntax
                          end
                      | PSyntax => PSyntax
                      | PFuel => PFuel
                      end
                    else PSyntax
                end
            end
          else PSyntax
      end
  end.

Definition fuel_for (s : jsstring) : nat := S (2 * List.length s).

(** [JSON.parse(s)]: [None] is the [SyntaxError]. *)
Definition JSON_parse (s : jsstring) : option json :=
  match parse_value (fuel_for s) s with
  | POk v rest => match skip_ws rest with [] => Some v | _ :: _ => None end
  | PSyntax => None
  | PFuel => None
  end.

End Json.
Export Json.

(* ================================================================== *)
(** ** [src/src/types.ts] *)

Module Types.

Inductive EntryType : Type := file | folder | image.

Record VibeEntry : Type := mkEntry {
  id : jsstring;
  name : jsstring;
  content : jsstring;
  language : jsstring;
  type : EntryType
}.

Inductive Role : Type := user | model.

(** The field [content] of a message is [msg_content] here: [content] is
    taken by [VibeEntry]. *)
Record ChatMessage : Type := mkMessage {
  role : Role;
  msg_content : jsstring
}.

Inductive AIMode : Type := ANALYZE | REFACTOR.

(** The string value of an enum member, as a template literal prints it. *)
Definition AIMode_value (m : AIMode) : jsstring :=
  match m with
  | ANALYZE => js "Analyze"
  | REFACTOR => js "Refactor (Thinking Mode)"
  end.

(** What can be thrown or be the reason of a rejected promise: an [Error]
    made by this code, the [SyntaxError] of [JSON.parse] (its message differs
    between engines and is never read), or whatever the SDK rejects with. *)
Inductive exn : Type :=
| Error (message : jsstring)
| SyntaxError
| Rejected (reason : jsstring).

(** The session object of the SDK, opaque to this code. *)
Inductive Chat : Type := ChatSession (handle : N).

(** The unchecked cast [const entries: VibeEntry[] = JSON.parse(...)] is
    sound exactly for the values recognised here. *)
Definition as_string (v : option json) : option jsstring :=
  match v with
  | Some (JString s) => Some s
  | _ => None
  end.

Definition as_EntryType (v : option json) : option EntryType :=
  match as_string v with
  | Some s =>
      if streq s (js "file") then Some file
      else if streq s (js "folder") then Some folder
      else if streq s (js "image") then Some image
      else None
  | None => None
  end.

Definition as_VibeEntry (v : json) : option VibeEntry :=
  match v with
  | JObject m =>
      match as_string (get_member (js "id") m),
            as_string (get_member (js "name") m),
            as_string (get_member (js "content") m),
            as_string (get_member (js "language") m),
            as_EntryType (get_member (js "type") m) with
      | Some i, Some n, Some c, Some l, Some t => Some (mkEntry i n c l t)
      | _, _, _, _, _ => None
      end
  | _ => None
  end.

Fixpoint as_all (l : list json) : option (list VibeEntry) :=
  match l with
  | [] => Some []
  | v :: r =>
      match as_VibeEntry v, as_all r with
      | Some e, Some es => Some (e :: es)
      | _, _ => None
      end
  end.

Definition as_entries (v : json) : option (list VibeEntry) :=
  match v with
  | JArray l => as_all l
  | _ => None
  end.

End Types.
Export Types.

(* ================================================================== *)
(** ** [src/services/geminiService.ts] *)

Module geminiService.

Record Client : Type := GoogleGenAI { apiKey : jsstring }.

(** The top level of the module: [process.env.API_KEY] is a string or
    [undefined]; [!API_KEY] holds for [undefined] and for the empty string. *)
Definition module_init (API_KEY : option jsstring) : exn + Client :=
  match API_KEY with
  | Some k =>
      if negb (truthy k) then inl (Error (js "API_KEY environment variable not set"))
      else inr (GoogleGenAI k)
  | None => inl (Error (js "API_KEY environment variable not set"))
  end.

(** [runChat]: [reply] is what [chat.sendMessage] settles to, [fresh] the
    session [ai.chats.create] would make. *)
Definition runChat (existingChat : option Chat) (fresh : Chat)
    (reply : exn + jsstring) : exn + (Chat * jsstring) :=
  let chat := match existingChat with Some c => c | None => fresh end in
  match reply with
  | inl e => inl e
  | inr text => inr (chat, text)
  end.

(** [analyzeCode] and [refactorCodeWithThinking] return [response.text] of
    the one request they make. *)
Definition analyzeCode (reply : exn + jsstring) : exn + jsstring := reply.
Definition refactorCodeWithThinking (reply : exn + jsstring) : exn + jsstring := reply.

(** The longest prefix of [s] that ends in the code unit [c]. *)
Fixpoint upto_last (c : N) (s : jsstring) : option jsstring :=
  match s with
  | [] => None
  | x :: r =>
      match upto_last c r with
      | Some p => Some (x :: p)
      | None => if x =? c then Some [x] else None
      end
  end.

(** [text.match(/\[[\s\S]*\]/)]: the first start position at which the
    pattern matches, and there the longest match; [[\s\S]] accepts every code
    unit.  [None] is the [null] of a failed match, [Some m] is
    [jsonMatch[0]]. *)
Fixpoint match_array (text : jsstring) : option jsstring :=
  match text with
  | [] => None
  | c :: r =>
      if c =? 91 then
        match upto_last 93 r with
        | Some body => Some (c :: body)
        | None => match_array r
        end
      else match_array r
  end.

Definition scaffold_failure : exn :=
  Error (js "Failed to generate project structure. Please try again.").

(** The body of the [try] block of [scaffoldProject]. *)
Definition scaffold_try (text : jsstring) : exn + json :=
  match match_array text with
  | None => inl (Error (js "No JSON array found in response"))
  | Some m =>
      match JSON_parse m with
      | Some v => inr v
      | None => inl SyntaxError
      end
  end.

(** [scaffoldProject]: [response] is what [generateContent] settles to; its
    [await] stands before the [try], so a rejection passes through.  The
    result is typed [VibeEntry[]] by an unchecked cast of the parsed value. *)
Definition scaffoldProject (response : exn + jsstring) : exn + json :=
  match response with
  | inl e => inl e
  | inr text =>
      match scaffold_try text with
      | inr entries => inr entries
      | inl _ => inl scaffold_failure
      end
  end.

End geminiService.
Export geminiService.

(* ================================================================== *)
(** ** [src/App.tsx] *)

Module App.

Definition initialEntries : list VibeEntry :=
  [ mkEntry (js "welcome.js") (js "welcome.js")
      (unlines
         [ "// Welcome to Vibe Code!"%string;
           "// Use the AI tools in the editor header to analyze or refactor your code."%string;
           "// Ask the Vibe Bot anything in the chat panel on the right."%string;
           EmptyString;
           "function greet(name) {"%string;
           "  console.log(`Hello, ${name}! Let's start coding.`);"%string;
           "}"%string;
           EmptyString;
           "greet('Developer');"%string ])
      (js "javascript") file;
    mkEntry (js "styles.css") (js "styles.css")
      (unlines
         [ "/* Give your web app some vibe! */"%string;
           "body {"%string;
           "  background-color: #1a202c;"%string;
           "  color: #cbd5e0;"%string;
           "  font-family: 'monospace', sans-serif;"%string;
           "}"%string;
           EmptyString;
           ".container {"%string;
           "  border: 1px solid #4a5568;"%string;
           "  border-radius: 8px;"%string;
           "  padding: 1rem;"%string;
           "}"%string ])
      (js "css") file;
    mkEntry (js "assets") (js "assets") [] [] folder ].

(** The state of the component: the six [useState] cells, and the messages
    shown by [alert] so far.  [console.error] only writes to the developer
    console and is left out. *)
Record State : Type := mkState {
  entries : list VibeEntry;
  activeId : option jsstring;
  chatHistory : list ChatMessage;
  isAiLoading : bool;
  chat : option Chat;
  isScaffoldModalOpen : bool;
  alerts : list jsstring
}.

(** The arguments of the [useState] calls. *)
Definition initialState : State :=
  mkState initialEntries (Some (js "welcome.js")) [] false None false [].

(** *** Handlers as computations: state and exceptions *)

Definition M (A : Type) : Type := State -> (exn + A) * State.

Definition ret {A} (a : A) : M A := fun st => (inr a, st).

Definition bind {A B} (m : M A) (k : A -> M B) : M B :=
  fun st =>
    match m st with
    | (inr a, st') => k a st'
    | (inl e, st') => (inl e, st')
    end.

Definition throw {A} (e : exn) : M A := fun st => (inl e, st).

(** [await p] for a promise that settles to [p]. *)
Definition await {A} (p : exn + A) : M A :=
  match p with
  | inr a => ret a
  | inl e => throw e
  end.

Definition try_catch {A} (body : M A) (handler : exn -> M A) : M A :=
  fun st =>
    match body st with
    | (inr a, st') => (inr a, st')
    | (inl e, st') => handler e st'
    end.

(** [try { body } finally { fin }]: [fin] runs either way; the outcome of
    [body] stands unless [fin] itself throws. *)
Definition try_finally {A} (body : M A) (fin : M unit) : M A :=
  fun st =>
    match body st with
    | (r, st') =>
        match fin st' with
        | (inr _, st'') => (r, st'')
        | (inl e, st'') => (inl e, st'')
        end
    end.

Declare Scope handler_scope.
Delimit Scope handler_scope with handler.
Notation "x <- m ;; k" := (bind m (fun x => k))
  (at level 100, m at next level, right associativity) : handler_scope.
Notation "m ;; k" := (bind m (fun _ => k))
  (at level 100, right associativity) : handler_scope.
Notation "'TRY' b 'CATCH' h 'FINALLY' f" := (try_finally (try_catch b h) f)
  (at level 100, b at next level, h at next level, f at next level) : handler_scope.
Local Open Scope handler_scope.

Definition when (b : bool) (m : M unit) : M unit := if b then m else ret tt.

(** Reading a state cell as the closure of the current render holds it. *)
Definition read {A} (cell : State -> A) : M A := fun st => (inr (cell st), st).

(** The setters take the updater function; [setX(v)] is [setX (fun _ => v)]. *)
Definition setEntries (f : list VibeEntry -> list VibeEntry) : M unit :=
  fun st => (inr tt, mkState (f (entries st)) (activeId st) (chatHistory st)
                      (isAiLoading st) (chat st) (isScaffoldModalOpen st) (alerts st)).

Definition setActiveId (v : option jsstring) : M unit :=
  fun st => (inr tt, mkState (entries st) v (chatHistory st)
                      (isAiLoading st) (chat st) (isScaffoldModalOpen st) (alerts st)).

Definition setChatHistory (f : list ChatMessage -> list ChatMessage) : M unit :=
  fun st => (inr tt, mkState (entries st) (activeId st) (f (chatHistory st))
                      (isAiLoading st) (chat st) (isScaffoldModalOpen st) (alerts st)).

Definition setIsAiLoading (v : bool) : M unit :=
  fun st => (inr tt, mkState (entries st) (activeId st) (chatHistory st)
                      v (chat st) (isScaffoldModalOpen st) (alerts st)).

Definition setChat (v : option Chat) : M unit :=
  fun st => (inr tt, mkState (entries st) (activeId st) (chatHistory st)
                      (isAiLoading st) v (isScaffoldModalOpen st) (alerts st)).

Definition setIsScaffoldModalOpen (v : bool) : M unit :=
  fun st => (inr tt, mkState (entries st) (activeId st) (chatHistory st)
                      (isAiLoading st) (chat st) v (alerts st)).

Definition alert (message : jsstring) : M unit :=
  fun st => (inr tt, mkState (entries st) (activeId st) (chatHistory st)
                      (isAiLoading st) (chat st) (isScaffoldModalOpen st)
                      (alerts st ++ [message])).

(** [x && ...] on [string | null]. *)
Definition truthy_opt (x : option jsstring) : bool :=
  match x with
  | Some s => truthy s
  | None => false
  end.

(** The effect registered by [useEffect(..., [])], run once after mount. *)
Definition mount_effect : M unit :=
  setChatHistory (fun _ =>
    [ mkMessage model
        (js "Hey! I'm Vibe Bot. Ask me anything about your code or general questions.") ]).

Definition handleSelect (i : jsstring) : M unit :=
  setActiveId (Some i).

Definition handleContentChange (newContent : jsstring) : M unit :=
  activeId <- read activeId ;;
  entries <- read entries ;;
  match activeId with
  | Some a =>
      when (truthy a)
        (setEntries (fun _ =>
           map (fun e => if streq (id e) a
                         then mkEntry (id e) (name e) newContent (language e) (type e)
                         else e) entries))
  | None => ret tt
  end.

(** [fileName] is the answer of [prompt]: a string, or [null] on cancel. *)
Definition handleNewFile (fileName : option jsstring) : M unit :=
  entries <- read entries ;;
  match fileName with
  | Some fileName =>
      if truthy fileName && negb (existsb (fun e => streq (name e) fileName) entries) then
        let newFile :=
          mkEntry fileName fileName
            (js "// New file: " ++ fileName)
            (or_else (pop (split 46 fileName)) (js "text"))
            file in
        setEntries (fun _ => entries ++ [newFile]) ;;
        setActiveId (Some (id newFile))
      else if truthy fileName then
        alert (js "A file with that name already exists.")
      else ret tt
  | None => ret tt
  end.

Definition handleNewFolder (folderPath : option jsstring) : M unit :=
  entries <- read entries ;;
  match folderPath with
  | Some folderPath =>
      if truthy folderPath && negb (existsb (fun e => streq (id e) folderPath) entries) then
        let newFolder :=
          mkEntry folderPath
            (or_else (pop (split 47 folderPath)) folderPath)
            [] [] folder in
        setEntries (fun _ => entries ++ [newFolder]) ;;
        setActiveId (Some (id newFolder))
      else if truthy folderPath then
        alert (js "A folder with that path already exists.")
      else ret tt
  | None => ret tt
  end.

(** [confirmed] is the answer [window.confirm] gives if it is asked. *)
Definition handleFileUpload (f : VibeEntry) (confirmed : bool) : M unit :=
  entries <- read entries ;;
  if negb (existsb (fun e => streq (name e) (name f)) entries) then
    setEntries (fun _ => entries ++ [f]) ;;
    setActiveId (Some (id f))
  else
    when confirmed
      (setEntries (fun _ => map (fun e => if streq (name e) (name f) then f else e) entries) ;;
       setActiveId (Some (id f))).

(** *** The asynchronous handlers

    Each is cut at its single [await].  [_start] is what runs in the event
    that calls the handler; [_resume] is what runs when the awaited promise
    has settled to [outcome], on the state of that later moment, with the
    values the closure captured at the call as arguments. *)

Definition fallbackMessage : ChatMessage :=
  mkMessage model (js "Sorry, I ran into an issue. Please check the console for details.").

Definition handleSendMessage_start (message : jsstring) : M unit :=
  let userMessage := mkMessage user message in
  setChatHistory (fun prev => prev ++ [userMessage]) ;;
  setIsAiLoading true.

Definition handleSendMessage_resume (chat : option Chat)
    (outcome : exn + (Chat * jsstring)) : M unit :=
  TRY
    (r <- await outcome ;;
     let (chatInstance, response) := r in
     when (match chat with None => true | Some _ => false end)
       (setChat (Some chatInstance)) ;;
     let modelMessage := mkMessage model response in
     setChatHistory (fun prev => prev ++ [modelMessage]))
  CATCH
    (fun error =>
       let errorMessage := fallbackMessage in
       setChatHistory (fun prev => prev ++ [errorMessage]))
  FINALLY
    (setIsAiLoading false).

(** The whole call when no other event runs in between: [fresh] and [reply]
    are the inputs of [runChat]. *)
Definition handleSendMessage (message : jsstring) (fresh : Chat)
    (reply : exn + jsstring) : M unit :=
  chat <- read chat ;;
  handleSendMessage_start message ;;
  handleSendMessage_resume chat (runChat chat fresh reply).

Definition handleAiAction_start : M unit :=
  setIsAiLoading true.

(** [activeId] is the value in the closure made by [useCallback]; [now] is
    [Date.now()], read after the result has arrived.  The last [else] of the
    dispatch on [mode] returns early; no member of [AIMode] reaches it. *)
Definition handleAiAction_resume (activeId : option jsstring) (mode : AIMode)
    (outcome : exn + jsstring) (now : N) : M unit :=
  TRY
    (result <- await outcome ;;
     let aiResponseFile :=
       mkEntry
         (js "ai-response-" ++ decimal now ++ js ".md")
         (AIMode_value mode ++ js "-response.md")
         (js "## AI " ++ AIMode_value mode ++ js " Result for "
            ++ show_nullable activeId ++ nl ++ nl ++ js "---" ++ nl ++ nl ++ result)
         (js "markdown")
         file in
     setEntries (fun prev => prev ++ [aiResponseFile]) ;;
     setActiveId (Some (id aiResponseFile)))
  CATCH
    (fun error =>
       alert (js "An error occurred during AI " ++ AIMode_value mode
                ++ js ". Please check the console."))
  FINALLY
    (setIsAiLoading false).

(** [reply] is what the one request of the chosen Gateway operation settles
    to. *)
Definition handleAiAction (mode : AIMode) (reply : exn + jsstring) (now : N) : M unit :=
  activeId <- read activeId ;;
  handleAiAction_start ;;
  handleAiAction_resume activeId mode
    (match mode with
     | ANALYZE => analyzeCode reply
     | REFACTOR => refactorCodeWithThinking reply
     end) now.

Definition handleScaffold_start : M unit :=
  setIsAiLoading true.

(** [outcome] is the reply as its type declares it, an array of entries.
    What [JSON.parse] returned is not checked against that type:
    [Unchecked.handleScaffold_resume] below is the handler on the array as
    parsed, and this one is its case of the replies that conform
    ([conforming_reply_refines]). *)
Definition handleScaffold_resume (outcome : exn + list VibeEntry) : M unit :=
  TRY
    (newEntries <- await outcome ;;
     setEntries (fun prev => prev ++ newEntries) ;;
     setIsScaffoldModalOpen false ;;
     match newEntries with
     | first :: _ => setActiveId (Some (id first))
     | [] => ret tt
     end)
  CATCH
    (fun error =>
       alert (js "An error occurred during scaffolding. Please check the console."))
  FINALLY
    (setIsAiLoading false).

Definition handleScaffold (outcome : exn + list VibeEntry) : M unit :=
  handleScaffold_start ;;
  handleScaffold_resume outcome.

(** [entries.find(e => e.id === activeId) || null], computed at each render. *)
Definition activeEntry (st : State) : option VibeEntry :=
  match activeId st with
  | Some a => find (fun e => streq (id e) a) (entries st)
  | None => None
  end.

(** The state a handler leaves, and whether it threw. *)
Definition exec {A} (m : M A) (st : State) : State := snd (m st).
Definition threw {A} (m : M A) (st : State) : bool :=
  match fst (m st) with inl _ => true | inr _ => false end.

End App.
Export App.

(* ================================================================== *)
(** ** Vocabulary of the properties *)

Module Vocabulary.

(** The state the user first acts on: the initial render followed by the
    mount effect. *)
Definition startup : State := exec mount_effect initialState.

(** A workspace with no entry and nothing selected. *)
Definition emptyWorkspace : State :=
  mkState [] None [] false None false [].

Definition greeting : ChatMessage :=
  mkMessage model
    (js "Hey! I'm Vibe Bot. Ask me anything about your code or general questions.").

Definition replyMessage (reply : exn + jsstring) : ChatMessage :=
  match reply with
  | inr text => mkMessage model text
  | inl _ => fallbackMessage
  end.

Definition ids (st : State) : list jsstring := map id (entries st).

(** The invariant of the data model: no two entries share an id. *)
Definition unique_ids (st : State) : Prop := NoDup (ids st).

Fixpoint nodupb (l : list jsstring) : bool :=
  match l with
  | [] => true
  | x :: r => negb (existsb (streq x) r) && nodupb r
  end.

(** The user's creation intents, each with the answer given to [prompt]. *)
Inductive Call : Type :=
| createFile (answer : option jsstring)
| createFolder (answer : option jsstring).

Definition run_call (c : Call) (st : State) : State :=
  match c with
  | createFile a => exec (handleNewFile a) st
  | createFolder a => exec (handleNewFolder a) st
  end.

Definition run_calls (cs : list Call) (st : State) : State :=
  fold_left (fun st c => run_call c st) cs st.

(** The id given to an AI result produced at clock reading [now]. *)
Definition ai_response_id (now : N) : jsstring :=
  js "ai-response-" ++ decimal now ++ js ".md".

Definition ai_response_file (activeId : option jsstring) (mode : AIMode)
    (result : jsstring) (now : N) : VibeEntry :=
  mkEntry (ai_response_id now)
    (AIMode_value mode ++ js "-response.md")
    (js "## AI " ++ AIMode_value mode ++ js " Result for "
       ++ show_nullable activeId ++ nl ++ nl ++ js "---" ++ nl ++ nl ++ result)
    (js "markdown") file.


(** The text has a substring that opens with a left bracket and closes with
    a right bracket. *)
Definition array_like (text : jsstring) : Prop :=
  exists a b c, text = a ++ 91 :: b ++ 93 :: c.

(** The Entry schema in the words of the specification: a JSON array of
    objects with string fields id, name, content and language and a type
    field that is the string file or the string folder. *)
Definition is_string (v : option json) : bool :=
  match v with
  | Some (JString _) => true
  | _ => false
  end.

Definition entry_schema (v : json) : bool :=
  match v with
  | JObject m =>
      is_string (get_member (js "id") m)
      && is_string (get_member (js "name") m)
      && is_string (get_member (js "content") m)
      && is_string (get_member (js "language") m)
      && match get_member (js "type") m with
         | Some (JString t) => streq t (js "file") || streq t (js "folder")
         | _ => false
         end
  | _ => false
  end.

Definition entries_schema (v : json) : bool :=
  match v with
  | JArray l => forallb entry_schema l
  | _ => false
  end.


End Vocabulary.
Export Vocabulary.

(* ================================================================== *)
(** ** The component as a transition system *)

Module Events.

(** One user intent, settled: the handler the component binds to it, with
    the inputs the environment supplies (the answer of a dialog, the outcome
    of the request, the clock).  The outcome of a scaffold is a failure or a
    reply that is an array of entries, as its type declares; the replies that
    are not are the subject of [Unchecked]. *)
Inductive Event : Type :=
| Select (i : jsstring)
| Edit (newContent : jsstring)
| NewFile (answer : option jsstring)
| NewFolder (answer : option jsstring)
| Upload (f : VibeEntry) (confirmed : bool)
| Send (message : jsstring) (fresh : Chat) (reply : exn + jsstring)
| AiAction (mode : AIMode) (reply : exn + jsstring) (now : N)
| Scaffold (outcome : exn + list VibeEntry).

Definition handler (ev : Event) : M unit :=
  match ev with
  | Select i => handleSelect i
  | Edit c => handleContentChange c
  | NewFile a => handleNewFile a
  | NewFolder a => handleNewFolder a
  | Upload f c => handleFileUpload f c
  | Send m fresh reply => handleSendMessage m fresh reply
  | AiAction mode reply now => handleAiAction mode reply now
  | Scaffold outcome => handleScaffold outcome
  end.

Definition step (ev : Event) (st : State) : State := exec (handler ev) st.

Definition run (evs : list Event) (st : State) : State :=
  fold_left (fun st ev => step ev st) evs st.

Definition names (st : State) : list jsstring := map name (entries st).

Definition unique_names (st : State) : Prop := NoDup (names st).

(** The selection is null or the id of an entry. *)
Definition active_valid (st : State) : Prop :=
  match activeId st with
  | Some a => In a (ids st)
  | None => True
  end.

(** Every selection in the run picks an id that is in the collection at
    that moment, as a click in the rendered tree does. *)
Fixpoint selects_offered (evs : list Event) (st : State) : Prop :=
  match evs with
  | [] => True
  | ev :: rest =>
      match ev with
      | Select i => In i (ids st)
      | _ => True
      end
      /\ selects_offered rest (step ev st)
  end.

(** The intents whose handler tests the name before it inserts, or inserts
    nothing. *)
Definition guards_name (ev : Event) : bool :=
  match ev with
  | NewFolder _ | AiAction _ _ _ | Scaffold _ => false
  | _ => true
  end.

(** Two messages sent one after the other before either reply arrives: both
    handlers start, then the two replies settle, in the order of the sends or,
    with [second_first], the second reply before the first.  Each call reads
    [chat] when it is invoked. *)
Definition overlapped_sends (m1 m2 : jsstring) (fresh1 fresh2 : Chat)
    (reply1 reply2 : exn + jsstring) (second_first : bool) (st : State) : State :=
  let chat1 := chat st in
  let st1 := exec (handleSendMessage_start m1) st in
  let chat2 := chat st1 in
  let st2 := exec (handleSendMessage_start m2) st1 in
  let resume1 := handleSendMessage_resume chat1 (runChat chat1 fresh1 reply1) in
  let resume2 := handleSendMessage_resume chat2 (runChat chat2 fresh2 reply2) in
  if second_first then exec resume1 (exec resume2 st2)
  else exec resume2 (exec resume1 st2).

End Events.
Export Events.

(* ================================================================== *)
(** ** The collection as it is at run time

    [scaffoldProject] returns the array that [JSON.parse] made, cast to
    [VibeEntry[]] without a check, and [handleScaffold] appends its elements
    as they are.  Here the collection holds such elements next to real
    entries, the active id holds whatever value was stored in it, and the
    handlers that read only [e.id] and [e.name] against a string are given
    on that state.  [App.handleScaffold_resume] is this handler on the
    replies that are arrays of entries ([conforming_reply_refines]).

    [handleContentChange], [activeEntry] and [handleAiAction] compare or
    print the active id itself; on an id that is a number or an object that
    needs double values and object identity, and they are not given here. *)

Module Unchecked.

Inductive Item : Type :=
| Typed (e : VibeEntry)
| Parsed (v : json).

(** [undefined], or a value that JSON text denotes ([null] and the strings
    among them). *)
Inductive Value : Type :=
| Undefined
| Val (v : json).

Inductive thrown : Type :=
| Raised (e : exn)
| TypeError.

Record State : Type := mkState {
  entries : list Item;
  activeId : Value;
  chatHistory : list ChatMessage;
  isAiLoading : bool;
  chat : option Chat;
  isScaffoldModalOpen : bool;
  alerts : list jsstring
}.

(** The result of reading a property. *)
Inductive Read : Type :=
| Throws
| Reads (v : Value).

(** [v.k] for [k] one of [id] and [name], which no prototype defines for
    the values of JSON: reading from [null] throws, an object gives its own
    member, and a boolean, a number, a string or an array gives
    [undefined]. *)
Definition member (k : jsstring) (v : json) : Read :=
  match v with
  | JNull => Throws
  | JObject m =>
      Reads (match get_member k m with
             | Some w => Val w
             | None => Undefined
             end)
  | _ => Reads Undefined
  end.

Definition get_id (it : Item) : Read :=
  match it with
  | Typed e => Reads (Val (JString (id e)))
  | Parsed v => member (js "id") v
  end.

Definition get_name (it : Item) : Read :=
  match it with
  | Typed e => Reads (Val (JString (name e)))
  | Parsed v => member (js "name") v
  end.

(** [v === s] for a string [s]. *)
Definition is_string (s : jsstring) (v : Value) : bool :=
  match v with
  | Val (JString t) => streq t s
  | _ => false
  end.

(** [entries.some(e => e.k === s)]: the elements are visited in order up to
    the first match; [None] when a read throws before one. *)
Fixpoint some_equal (get : Item -> Read) (s : jsstring) (items : list Item)
  : option bool :=
  match items with
  | [] => Some false
  | it :: rest =>
      match get it with
      | Throws => None
      | Reads v => if is_string s v then Some true else some_equal get s rest
      end
  end.

(** [entries.map(e => e.name === file.name ? file : e)]: every element is
    visited; [None] when a read throws. *)
Fixpoint map_replace (file : VibeEntry) (items : list Item) : option (list Item) :=
  match items with
  | [] => Some []
  | it :: rest =>
      match get_name it with
      | Throws => None
      | Reads v =>
          match map_replace file rest with
          | Some rest' =>
              Some ((if is_string (name file) v then Typed file else it) :: rest')
          | None => None
          end
      end
  end.

Definition M (A : Type) : Type := State -> (thrown + A) * State.

Definition ret {A} (a : A) : M A := fun st => (inr a, st).

Definition bind {A B} (m : M A) (k : A -> M B) : M B :=
  fun st =>
    match m st with
    | (inr a, st') => k a st'
    | (inl e, st') => (inl e, st')
    end.

Definition throw {A} (e : thrown) : M A := fun st => (inl e, st).

Definition await {A} (p : exn + A) : M A :=
  match p with
  | inr a => ret a
  | inl e => throw (Raised e)
  end.

Definition try_catch {A} (body : M A) (handler : thrown -> M A) : M A :=
  fun st =>
    match body st with
    | (inr a, st') => (inr a, st')
    | (inl e, st') => handler e st'
    end.

Definition try_finally {A} (body : M A) (fin : M unit) : M A :=
  fun st =>
    match body st with
    | (r, st') =>
        match fin st' with
        | (inr _, st'') => (r, st'')
        | (inl e, st'') => (inl e, st'')
        end
    end.

Declare Scope unchecked_scope.
Delimit Scope unchecked_scope with unchecked.
Notation "x <- m ;; k" := (bind m (fun x => k))
  (at level 100, m at next level, right associativity) : unchecked_scope.
Notation "m ;; k" := (bind m (fun _ => k))
  (at level 100, right associativity) : unchecked_scope.
Notation "'TRY' b 'CATCH' h 'FINALLY' f" := (try_finally (try_catch b h) f)
  (at level 100, b at next level, h at next level, f at next level) : unchecked_scope.
Local Open Scope unchecked_scope.

Definition read {A} (cell : State -> A) : M A := fun st => (inr (cell st), st).

Definition setEntries (f : list Item -> list Item) : M unit :=
  fun st => (inr tt, mkState (f (entries st)) (activeId st) (chatHistory st)
                      (isAiLoading st) (chat st) (isScaffoldModalOpen st) (alerts st)).

Definition setActiveId (v : Value) : M unit :=
  fun st => (inr tt, mkState (entries st) v (chatHistory st)
                      (isAiLoading st) (chat st) (isScaffoldModalOpen st) (alerts st)).

Definition setIsAiLoading (v : bool) : M unit :=
  fun st => (inr tt, mkState (entries st) (activeId st) (chatHistory st)
                      v (chat st) (isScaffoldModalOpen st) (alerts st)).

Definition setIsScaffoldModalOpen (v : bool) : M unit :=
  fun st => (inr tt, mkState (entries st) (activeId st) (chatHistory st)
                      (isAiLoading st) (chat st) v (alerts st)).

Definition alert (message : jsstring) : M unit :=
  fun st => (inr tt, mkState (entries st) (activeId st) (chatHistory st)
                      (isAiLoading st) (chat st) (isScaffoldModalOpen st)
                      (alerts st ++ [message])).

Definition handleNewFile (fileName : option jsstring) : M unit :=
  entries <- read entries ;;
  match fileName with
  | Some fileName =>
      if truthy fileName then
        match some_equal get_name fileName entries with
        | None => throw TypeError
        | Some false =>
            let newFile :=
              mkEntry fileName fileName
                (js "// New file: " ++ fileName)
                (or_else (pop (split 46 fileName)) (js "text"))
                file in
            setEntries (fun _ => entries ++ [Typed newFile]) ;;
            setActiveId (Val (JString (id newFile)))
        | Some true => alert (js "A file with that name already exists.")
        end
      else ret tt
  | None => ret tt
  end.

Definition handleNewFolder (folderPath : option jsstring) : M unit :=
  entries <- read entries ;;
  match folderPath with
  | Some folderPath =>
      if truthy folderPath then
        match some_equal get_id folderPath entries with
        | None => throw TypeError
        | Some false =>
            let newFolder :=
              mkEntry folderPath
                (or_else (pop (split 47 folderPath)) folderPath)
                [] [] folder in
            setEntries (fun _ => entries ++ [Typed newFolder]) ;;
            setActiveId (Val (JString (id newFolder)))
        | Some true => alert (js "A folder with that path already exists.")
        end
      else ret tt
  | None => ret tt
  end.

Definition handleFileUpload (f : VibeEntry) (confirmed : bool) : M unit :=
  entries <- read entries ;;
  match some_equal get_name (name f) entries with
  | None => throw TypeError
  | Some false =>
      setEntries (fun _ => entries ++ [Typed f]) ;;
      setActiveId (Val (JString (id f)))
  | Some true =>
      if confirmed then
        match map_replace f entries with
        | None => throw TypeError
        | Some replaced =>
            setEntries (fun _ => replaced) ;;
            setActiveId (Val (JString (id f)))
        end
      else ret tt
  end.

Definition handleScaffold_start : M unit :=
  setIsAiLoading true.

(** [outcome] is what [scaffoldProject] settles to, a success given by the
    elements of the array it returns (it returns nothing but arrays,
    [scaffoldProject_returns_array]). *)
Definition handleScaffold_resume (outcome : exn + list json) : M unit :=
  TRY
    (newEntries <- await outcome ;;
     setEntries (fun prev => prev ++ map Parsed newEntries) ;;
     setIsScaffoldModalOpen false ;;
     match newEntries with
     | first :: _ =>
         match get_id (Parsed first) with
         | Throws => throw TypeError
         | Reads v => setActiveId v
         end
     | [] => ret tt
     end)
  CATCH
    (fun error =>
       alert (js "An error occurred during scaffolding. Please check the console."))
  FINALLY
    (setIsAiLoading false).

Definition handleScaffold (outcome : exn + list json) : M unit :=
  handleScaffold_start ;;
  handleScaffold_resume outcome.

(** The elements of an array. *)
Definition elements (v : json) : list json :=
  match v with
  | JArray l => l
  | _ => []
  end.

(** [handleScaffold] on what [scaffoldProject] makes of the response of the
    service. *)
Definition runScaffold (response : exn + jsstring) : M unit :=
  handleScaffold
    (match scaffoldProject response with
     | inl e => inl e
     | inr v => inr (elements v)
     end).

Definition exec {A} (m : M A) (st : State) : State := snd (m st).

Definition outcome_of {A} (m : M A) (st : State) : option thrown :=
  match fst (m st) with
  | inl e => Some e
  | inr _ => None
  end.

(** A state of entries, seen as a state at run time. *)
Definition embed (st : App.State) : State :=
  mkState (map Typed (App.entries st))
    (match App.activeId st with
     | Some s => Val (JString s)
     | None => Val JNull
     end)
    (App.chatHistory st) (App.isAiLoading st) (App.chat st)
    (App.isScaffoldModalOpen st) (App.alerts st).

(** A parsed element that has the shape of an entry, seen as that entry. *)
Definition view (it : Item) : Item :=
  match it with
  | Parsed v =>
      match as_VibeEntry v with
      | Some e => Typed e
      | None => it
      end
  | Typed _ => it
  end.

(** The active id is [null], or a string that is the id of an element. *)
Definition active_valid (st : State) : Prop :=
  activeId st = Val JNull
  \/ exists s it, activeId st = Val (JString s)
                  /\ In it (entries st) /\ get_id it = Reads (Val (JString s)).

End Unchecked.

(* ================================================================== *)
(** ** Properties *)

Local Open Scope handler_scope.

Ltac run_handler :=
  cbv beta iota delta
    [exec threw try_finally try_catch bind await throw ret when read
     setEntries setActiveId setChatHistory setIsAiLoading setChat
     setIsScaffoldModalOpen alert truthy_opt
     mount_effect handleSelect handleContentChange handleNewFile handleNewFolder
     handleFileUpload handleSendMessage handleSendMessage_start
     handleSendMessage_resume handleAiAction handleAiAction_start
     handleAiAction_resume handleScaffold handleScaffold_start
     handleScaffold_resume runChat analyzeCode refactorCodeWithThinking
     fst snd];
  cbn [entries activeId chatHistory isAiLoading chat isScaffoldModalOpen alerts].

Section Startup.

(** C10: at startup the collection holds exactly the three seeded entries
    (file welcome.js, file styles.css, folder assets), the active id is
    welcome.js and the transcript is the one greeting of the model; a first
    chat message therefore ends on a transcript of three messages, whether
    the Gateway answers or fails. *)
Theorem startup_is_seeded :
  map (fun e => (id e, name e, type e)) (entries startup)
    = [ (js "welcome.js", js "welcome.js", file);
        (js "styles.css", js "styles.css", file);
        (js "assets", js "assets", folder) ]
  /\ activeId startup = Some (js "welcome.js")
  /\ chatHistory startup = [greeting]
  /\ isAiLoading startup = false
  /\ forall message fresh reply,
       List.length (chatHistory (exec (handleSendMessage message fresh reply) startup)) = 3%nat
       /\ firstn 2 (chatHistory (exec (handleSendMessage message fresh reply) startup))
          = [greeting; mkMessage user message].
Proof.
  repeat split; try reflexivity; destruct reply; reflexivity.
Qed.

End Startup.

Section ModuleInitialisation.

(** C9: without the credential the module fails while it is being evaluated,
    with its own error, so no Gateway operation is ever exported; with a
    credential (a non-empty value of the variable) evaluation succeeds and
    the client holds that key. *)
Theorem module_init_fails_fast :
  module_init None = inl (Error (js "API_KEY environment variable not set"))
  /\ forall k, k <> [] -> module_init (Some k) = inr (GoogleGenAI k).
Proof.
  split; [reflexivity|].
  intros [|c k] H; [congruence | reflexivity].
Qed.

Lemma module_init_fails_fast_witness :
  module_init (Some (js "secret")) = inr (GoogleGenAI (js "secret")).
Proof.
  apply (proj2 module_init_fails_fast (js "secret")). discriminate.
Defined.

(** The empty string is falsy: a variable set to nothing counts as unset. *)
Lemma module_init_empty_key :
  module_init (Some []) = inl (Error (js "API_KEY environment variable not set")).
Proof. reflexivity. Qed.

Lemma module_init_succeeds_iff (env : option jsstring) :
  (exists c, module_init env = inr c) <-> (exists k, env = Some k /\ k <> []).
Proof.
  split.
  - intros [c H]. destruct env as [[|x k]|]; simpl in H; try discriminate.
    exists (x :: k). split; [reflexivity | discriminate].
  - intros [k [-> Hk]]. exists (GoogleGenAI k).
    destruct k; [congruence | reflexivity].
Qed.

End ModuleInitialisation.

Section Chat.

Variables (message : jsstring) (fresh : Chat).

(** When the promise settles, whatever happened in between, exactly one
    message is appended, nothing is thrown and the busy flag is cleared. *)
Lemma handleSendMessage_resume_appends (c : option Chat)
    (outcome : exn + (Chat * jsstring)) (st : State) :
  threw (handleSendMessage_resume c outcome) st = false
  /\ isAiLoading (exec (handleSendMessage_resume c outcome) st) = false
  /\ chatHistory (exec (handleSendMessage_resume c outcome) st)
     = chatHistory st
         ++ [match outcome with
             | inr (_, text) => mkMessage model text
             | inl _ => fallbackMessage
             end].
Proof.
  destruct outcome as [e|[ci text]]; [|destruct c]; repeat split.
Qed.

(** C6: a chat message grows the transcript by exactly two messages, the
    user's and then the model's reply or, if the Gateway fails, the fixed
    fallback; the handler never throws, and the busy flag is false once it has
    settled. *)
Theorem handleSendMessage_two_messages (reply : exn + jsstring) (st : State) :
  threw (handleSendMessage message fresh reply) st = false
  /\ isAiLoading (exec (handleSendMessage message fresh reply) st) = false
  /\ chatHistory (exec (handleSendMessage message fresh reply) st)
     = chatHistory st ++ [mkMessage user message; replyMessage reply]
  /\ List.length (chatHistory (exec (handleSendMessage message fresh reply) st))
     = (List.length (chatHistory st) + 2)%nat.
Proof.
  assert (H : chatHistory (exec (handleSendMessage message fresh reply) st)
              = chatHistory st ++ [mkMessage user message; replyMessage reply]).
  { run_handler. destruct reply as [e|text]; [|destruct (chat st)];
      cbn; rewrite <- app_assoc; reflexivity. }
  repeat split.
  - run_handler. destruct reply as [e|text]; [|destruct (chat st)]; reflexivity.
  - run_handler. destruct reply as [e|text]; [|destruct (chat st)]; reflexivity.
  - exact H.
  - rewrite H, length_app. reflexivity.
Qed.

(** The session is stored only when none was held. *)
Lemma handleSendMessage_session (text : jsstring) (st : State) :
  chat (exec (handleSendMessage message fresh (inr text)) st)
  = Some (match chat st with Some c => c | None => fresh end).
Proof.
  run_handler. destruct (chat st); reflexivity.
Qed.

End Chat.

Section GatewayFailure.

Variables (st : State) (e : exn).

(** When the promise is rejected, the continuation touches neither the
    collection nor the selection, on whatever state it finds. *)
Lemma handleAiAction_resume_failure (a : option jsstring) (mode : AIMode) (now : N) :
  entries (exec (handleAiAction_resume a mode (inl e) now) st) = entries st
  /\ activeId (exec (handleAiAction_resume a mode (inl e) now) st) = activeId st
  /\ threw (handleAiAction_resume a mode (inl e) now) st = false.
Proof. repeat split. Qed.

Lemma handleScaffold_resume_failure :
  entries (exec (handleScaffold_resume (inl e)) st) = entries st
  /\ activeId (exec (handleScaffold_resume (inl e)) st) = activeId st
  /\ threw (handleScaffold_resume (inl e)) st = false.
Proof. repeat split. Qed.

Lemma handleScaffold_resume_clears_busy (outcome : exn + list VibeEntry) :
  isAiLoading (exec (handleScaffold_resume outcome) st) = false.
Proof. destruct outcome as [x|[|f l]]; reflexivity. Qed.

Lemma handleAiAction_resume_clears_busy (a : option jsstring) (mode : AIMode)
    (outcome : exn + jsstring) (now : N) :
  isAiLoading (exec (handleAiAction_resume a mode outcome now) st) = false.
Proof. destruct outcome; reflexivity. Qed.

(** C7: if the Gateway call of runAiAction or of runScaffold fails, the
    collection and the active id are what they were before the call, and a
    notification is shown; on success and on failure alike, both operations
    end with the busy flag cleared. *)
Theorem gateway_failure_keeps_collection (mode : AIMode) (now : N) :
  (entries (exec (handleAiAction mode (inl e) now) st) = entries st
   /\ activeId (exec (handleAiAction mode (inl e) now) st) = activeId st
   /\ List.length (alerts (exec (handleAiAction mode (inl e) now) st))
      = S (List.length (alerts st)))
  /\ (entries (exec (handleScaffold (inl e)) st) = entries st
      /\ activeId (exec (handleScaffold (inl e)) st) = activeId st
      /\ List.length (alerts (exec (handleScaffold (inl e)) st))
         = S (List.length (alerts st)))
  /\ (forall reply, isAiLoading (exec (handleAiAction mode reply now) st) = false)
  /\ (forall outcome, isAiLoading (exec (handleScaffold outcome) st) = false).
Proof.
  split; [|split; [|split]].
  - destruct mode; run_handler; rewrite length_app, Nat.add_comm; repeat split.
  - run_handler; rewrite length_app, Nat.add_comm; repeat split.
  - intros [x|r]; destruct mode; reflexivity.
  - intros [x|[|f l]]; reflexivity.
Qed.

End GatewayFailure.

Section AiResult.

Lemma nodupb_spec (l : list jsstring) : nodupb l = true <-> NoDup l.
Proof.
  induction l as [|x r IH]; simpl.
  - split; [constructor | reflexivity].
  - rewrite andb_true_iff, negb_true_iff, IH, NoDup_cons_iff.
    assert (H : existsb (streq x) r = false <-> ~ In x r).
    { rewrite <- not_true_iff_false, existsb_exists. split.
      - intros H Hin. apply H. exists x. split; [exact Hin|].
        unfold streq. destruct (list_eq_dec N.eq_dec x x); congruence.
      - intros H [y [Hin Heq]]. unfold streq in Heq.
        destruct (list_eq_dec N.eq_dec x y); [subst; auto | discriminate]. }
    tauto.
Qed.

Lemma streq_true (a b : jsstring) : streq a b = true <-> a = b.
Proof.
  unfold streq. destruct (list_eq_dec N.eq_dec a b); split; congruence.
Qed.

Lemma NoDup_snoc (l : list jsstring) (x : jsstring) :
  NoDup (l ++ [x]) <-> NoDup l /\ ~ In x l.
Proof.
  split.
  - intros H. apply NoDup_remove in H. rewrite app_nil_r in H. exact H.
  - intros [H1 H2]. apply NoDup_app; [exact H1 | repeat constructor; intros [] |].
    intros a Ha [<-|[]]. exact (H2 Ha).
Qed.

(** Different clock readings give different ids. *)
Lemma js_inj (a b : string) : js a = js b -> a = b.
Proof.
  unfold js. revert b. induction a as [|c a IH]; intros [|d b] H;
    simpl in H; try discriminate; [reflexivity|].
  injection H as Hc Hr. f_equal; [|now apply IH].
  rewrite <- (ascii_N_embedding c), <- (ascii_N_embedding d). now f_equal.
Qed.

Lemma to_uint_nonnil (n : N) : N.to_uint n <> Decimal.Nil.
Proof.
  destruct n; [discriminate | apply DecimalPos.Unsigned.to_uint_nonnil].
Qed.

Lemma decimal_inj (m n : N) : decimal m = decimal n -> m = n.
Proof.
  unfold decimal. intros H. apply js_inj in H.
  apply DecimalN.Unsigned.to_uint_inj.
  apply (f_equal NilZero.uint_of_string) in H.
  rewrite !NilZero.usu in H by apply to_uint_nonnil.
  congruence.
Qed.

Lemma ai_response_id_inj (m n : N) : ai_response_id m = ai_response_id n -> m = n.
Proof.
  unfold ai_response_id. intros H.
  apply app_inv_head in H. apply app_inv_tail in H. now apply decimal_inj.
Qed.

(** C3, as the code has it: on success exactly one markdown entry is appended
    to the collection found when the result arrives, and it is activated; its
    content is the result under a heading that names the id that was active
    when the action was invoked; its id is built from the clock reading alone,
    so the ids stay unique exactly when they were unique and no entry already
    carries the id of this reading. *)
Theorem handleAiAction_appends_result (mode : AIMode) (result : jsstring) (now : N)
    (invoked settled : State) :
  let new := ai_response_file (activeId invoked) mode result now in
  let st' := exec (handleAiAction_resume (activeId invoked) mode (inr result) now) settled in
  entries st' = entries settled ++ [new]
  /\ activeId st' = Some (id new)
  /\ id new = ai_response_id now
  /\ language new = js "markdown" /\ type new = file
  /\ (exists heading, content new = heading ++ result
        /\ heading = js "## AI " ++ AIMode_value mode ++ js " Result for "
                       ++ show_nullable (activeId invoked)
                       ++ nl ++ nl ++ js "---" ++ nl ++ nl)
  /\ (unique_ids st' <-> unique_ids settled /\ ~ In (ai_response_id now) (ids settled))
  /\ exec (handleAiAction mode (inr result) now) invoked
     = exec (handleAiAction_resume (activeId invoked) mode (inr result) now)
         (exec handleAiAction_start invoked).
Proof.
  cbv zeta.
  split; [reflexivity|]. split; [reflexivity|]. split; [reflexivity|].
  split; [reflexivity|]. split; [reflexivity|].
  split; [|split].
  - eexists. split; [|reflexivity].
    cbn [content ai_response_file]. rewrite <- !app_assoc. reflexivity.
  - unfold unique_ids, ids.
    change (entries (exec (handleAiAction_resume (activeId invoked) mode (inr result) now)
                       settled))
      with (entries settled ++ [ai_response_file (activeId invoked) mode result now]).
    rewrite map_app. apply NoDup_snoc.
  - destruct mode; reflexivity.
Qed.

(** C3 as stated fails: two results that arrive at the same clock reading get
    the same id. *)
Lemma same_tick_same_id :
  let now := 1700000000000 in
  let st1 := exec (handleAiAction ANALYZE (inr (js "x")) now) startup in
  let st2 := exec (handleAiAction ANALYZE (inr (js "x")) now) st1 in
  unique_ids startup
  /\ unique_ids st1
  /\ In (ai_response_id now) (ids st1)
  /\ ids st2 = ids st1 ++ [ai_response_id now]
  /\ ~ unique_ids st2.
Proof.
  cbv zeta. unfold unique_ids. rewrite <- !nodupb_spec.
  repeat split; try (vm_compute; reflexivity).
  - vm_compute. auto 10.
  - intros H. vm_compute in H. discriminate.
Qed.

End AiResult.

Section Editing.

Variables (newContent : jsstring) (st : State).



End Editing.



Section Creation.

Lemma existsb_id (x : jsstring) (l : list VibeEntry) :
  existsb (fun e => streq (id e) x) l = true <-> In x (map id l).
Proof.
  rewrite existsb_exists, in_map_iff. split.
  - intros [e [Hin H]]. apply streq_true in H. now exists e.
  - intros [e [H Hin]]. exists e. split; [exact Hin | now apply streq_true].
Qed.

Lemma existsb_name (x : jsstring) (l : list VibeEntry) :
  existsb (fun e => streq (name e) x) l = true <-> In x (map name l).
Proof.
  rewrite existsb_exists, in_map_iff. split.
  - intros [e [Hin H]]. apply streq_true in H. now exists e.
  - intros [e [H Hin]]. exists e. split; [exact Hin | now apply streq_true].
Qed.

Variable st : State.

(** createFolder guards on the id it is about to insert. *)
Lemma handleNewFolder_keeps_unique_ids (answer : option jsstring) :
  unique_ids st -> unique_ids (exec (handleNewFolder answer) st).
Proof.
  unfold unique_ids, ids. intros H. run_handler.
  destruct answer as [[|c p]|]; [exact H | | exact H]. cbn.
  destruct (existsb _ (entries st)) eqn:E; cbn; [exact H|].
  rewrite map_app. apply NoDup_snoc. split; [exact H|].
  cbn. rewrite <- existsb_id, E. discriminate.
Qed.

Lemma handleNewFolder_duplicate (p : jsstring) :
  p <> [] -> In p (ids st) ->
  entries (exec (handleNewFolder (Some p)) st) = entries st
  /\ activeId (exec (handleNewFolder (Some p)) st) = activeId st
  /\ alerts (exec (handleNewFolder (Some p)) st)
     = alerts st ++ [js "A folder with that path already exists."].
Proof.
  intros Hp Hin. apply existsb_id in Hin. run_handler.
  destruct p as [|c p]; [congruence|]. cbn. rewrite Hin. repeat split.
Qed.

(** createFile guards on the name; that protects the ids only while every
    entry has its name as id, which createFile itself maintains and
    createFolder does not. *)
Lemma handleNewFile_keeps_unique_ids (answer : option jsstring) :
  (forall e, In e (entries st) -> id e = name e) ->
  unique_ids st ->
  unique_ids (exec (handleNewFile answer) st)
  /\ forall e, In e (entries (exec (handleNewFile answer) st)) -> id e = name e.
Proof.
  unfold unique_ids, ids. intros Hn H. run_handler.
  destruct answer as [[|c p]|]; [now split | | now split]. cbn.
  destruct (existsb _ (entries st)) eqn:E; cbn; [now split|]. split.
  - rewrite map_app. apply NoDup_snoc. split; [exact H|]. cbn.
    intros Hin. apply in_map_iff in Hin. destruct Hin as [e [He Hin]].
    assert (X : existsb (fun e => streq (name e) (c :: p)) (entries st) = true).
    { apply existsb_name. apply in_map_iff. exists e. split; [|exact Hin].
      rewrite <- (Hn e Hin). exact He. }
    congruence.
  - intros e Hin. apply in_app_or in Hin. destruct Hin as [Hin|[<-|[]]];
      [now apply Hn | reflexivity].
Qed.

(** What createFile does, case by case. *)
Lemma handleNewFile_rejected (answer : option jsstring) :
  answer = None \/ answer = Some []
  \/ (exists n, answer = Some n /\ In n (map name (entries st))) ->
  entries (exec (handleNewFile answer) st) = entries st
  /\ activeId (exec (handleNewFile answer) st) = activeId st
  /\ threw (handleNewFile answer) st = false.
Proof.
  intros [->|[->|[n [-> Hin]]]]; try (repeat split; fail).
  apply existsb_name in Hin. run_handler.
  destruct n as [|c n]; [repeat split|]. cbn. rewrite Hin. repeat split.
Qed.

Lemma handleNewFile_duplicate_alert (n : jsstring) :
  n <> [] -> In n (map name (entries st)) ->
  alerts (exec (handleNewFile (Some n)) st)
  = alerts st ++ [js "A file with that name already exists."].
Proof.
  intros Hn Hin. apply existsb_name in Hin. run_handler.
  destruct n as [|c n]; [congruence|]. cbn. rewrite Hin. reflexivity.
Qed.

Lemma handleNewFile_created (n : jsstring) :
  n <> [] -> ~ In n (map name (entries st)) ->
  entries (exec (handleNewFile (Some n)) st)
  = entries st ++ [mkEntry n n (js "// New file: " ++ n)
                     (or_else (pop (split 46 n)) (js "text")) file]
  /\ activeId (exec (handleNewFile (Some n)) st) = Some n
  /\ alerts (exec (handleNewFile (Some n)) st) = alerts st.
Proof.
  intros Hn Hin. rewrite <- existsb_name in Hin. apply not_true_is_false in Hin.
  run_handler. destruct n as [|c n]; [congruence|]. cbn. rewrite Hin. repeat split.
Qed.

End Creation.

Section Language.

Variable sep : N.

Lemma split_nonempty (s : jsstring) : split sep s <> [].
Proof.
  destruct s as [|c r]; simpl; [discriminate|].
  destruct (c =? sep); [discriminate|].
  destruct (split sep r); discriminate.
Qed.

Lemma split_no_sep (s : jsstring) : ~ In sep s -> split sep s = [s].
Proof.
  induction s as [|c r IH]; simpl; intros H; [reflexivity|].
  destruct (N.eqb_spec c sep) as [->|_]; [tauto|].
  rewrite IH by tauto. reflexivity.
Qed.

Lemma split_app (a b : jsstring) :
  split sep (a ++ sep :: b) = split sep a ++ split sep b.
Proof.
  induction a as [|c a IH]; simpl.
  - now rewrite N.eqb_refl.
  - destruct (c =? sep); [now rewrite IH|].
    rewrite IH. pose proof (split_nonempty a).
    destruct (split sep a); [congruence | reflexivity].
Qed.

Lemma pop_app {A} (l1 l2 : list A) : l2 <> [] -> pop (l1 ++ l2) = pop l2.
Proof.
  intros H. induction l1 as [|x l1 IH]; [reflexivity|].
  cbn [app pop]. rewrite IH. destruct (l1 ++ l2) eqn:E; [|reflexivity].
  apply app_eq_nil in E. tauto.
Qed.

(** [s.split(sep).pop()] is the part of [s] after its last separator, and the
    whole of [s] when it has none. *)
Lemma pop_split_after_last (a b : jsstring) :
  ~ In sep b -> pop (split sep (a ++ sep :: b)) = Some b.
Proof.
  intros H. rewrite split_app, pop_app by apply split_nonempty.
  now rewrite split_no_sep.
Qed.

Lemma pop_split_no_sep (s : jsstring) : ~ In sep s -> pop (split sep s) = Some s.
Proof.
  intros H. now rewrite split_no_sep.
Qed.

End Language.

(** The language createFile derives: the extension when the name has a dot
    and something follows the last one; text when the name ends in a dot; the
    whole name when it has no dot. *)
Lemma language_with_dot (a b : jsstring) :
  ~ In 46 b ->
  or_else (pop (split 46 (a ++ 46 :: b))) (js "text")
  = match b with [] => js "text" | _ :: _ => b end.
Proof.
  intros H. rewrite pop_split_after_last by exact H. now destruct b.
Qed.

Lemma language_without_dot (n : jsstring) :
  ~ In 46 n -> n <> [] -> or_else (pop (split 46 n)) (js "text") = n.
Proof.
  intros H Hn. rewrite pop_split_no_sep by exact H. destruct n; [congruence|reflexivity].
Qed.

(** The end-to-end example of the specification: the second createFile of
    the same name changes neither the entries nor the selection and is
    reported. *)
Example createFile_twice :
  let st1 := exec (handleNewFile (Some (js "a.js"))) emptyWorkspace in
  let st2 := exec (handleNewFile (Some (js "a.js"))) st1 in
  entries st1 = [mkEntry (js "a.js") (js "a.js") (js "// New file: a.js") (js "js") file]
  /\ activeId st1 = Some (js "a.js")
  /\ entries st2 = entries st1
  /\ activeId st2 = Some (js "a.js")
  /\ alerts st2 = [js "A file with that name already exists."].
Proof. repeat split. Qed.

(** An upload into an empty collection, then a selection of its id, shows
    the uploaded entry. *)
Lemma upload_then_select (e : VibeEntry) (confirmed : bool) :
  activeEntry (exec (handleSelect (id e))
                 (exec (handleFileUpload e confirmed) emptyWorkspace)) = Some e.
Proof.
  unfold activeEntry. run_handler. cbn.
  assert (H : streq (id e) (id e) = true) by now apply streq_true.
  now rewrite H.
Qed.

(** C1 fails on the code: a folder created at a path, then a file created
    with the same text as name, are two entries with one id; the second call
    is not rejected and nothing is reported. *)
Theorem createFile_after_createFolder_shares_id :
  let calls := [createFolder (Some (js "src/a")); createFile (Some (js "src/a"))] in
  unique_ids emptyWorkspace
  /\ ids (run_calls calls emptyWorkspace) = [js "src/a"; js "src/a"]
  /\ map name (entries (run_calls calls emptyWorkspace)) = [js "a"; js "src/a"]
  /\ alerts (run_calls calls emptyWorkspace) = []
  /\ ~ unique_ids (run_calls calls emptyWorkspace).
Proof.
  cbv zeta. split; [constructor|]. repeat split; try (vm_compute; reflexivity).
  unfold unique_ids. rewrite <- nodupb_spec. vm_compute. discriminate.
Qed.

(** C2 fails on the code: for a name without a dot the language is the name
    itself, not text. *)
Theorem createFile_language_of_dotless_name :
  entries (exec (handleNewFile (Some (js "Makefile"))) emptyWorkspace)
  = [mkEntry (js "Makefile") (js "Makefile") (js "// New file: Makefile")
       (js "Makefile") file]
  /\ activeId (exec (handleNewFile (Some (js "Makefile"))) emptyWorkspace)
     = Some (js "Makefile")
  /\ js "Makefile" <> js "text".
Proof.
  repeat split. discriminate.
Qed.

(* ------------------------------------------------------------------ *)
(** *** The parser terminates within its fuel *)

Section ParserFuel.

Lemma skip_ws_length (s : jsstring) : (List.length (skip_ws s) <= List.length s)%nat.
Proof.
  induction s as [|c r IH]; simpl; [lia|].
  destruct (is_ws c); simpl; lia.
Qed.

Lemma skip_ws_cons (s : jsstring) (c : N) (r : jsstring) :
  skip_ws s = c :: r -> (List.length r < List.length s)%nat.
Proof.
  intros H. pose proof (skip_ws_length s) as L. rewrite H in L. simpl in L. lia.
Qed.

Lemma parse_chars_length (n : nat) :
  forall s str r, (List.length s <= n)%nat ->
    parse_chars s = Some (str, r) -> (List.length r < List.length s)%nat.
Proof.
  induction n as [|n IH]; intros s str r Hn H.
  - destruct s; [discriminate | simpl in Hn; lia].
  - destruct s as [|c s]; [discriminate|]. simpl in Hn. simpl in H.
    destruct (c =? 34).
    { injection H as _ <-. simpl. lia. }
    destruct (c =? 92).
    + destruct s as [|e s]; [discriminate|]. simpl in Hn.
      destruct (e =? 117).
      * destruct s as [|h1 [|h2 [|h3 [|h4 s]]]]; try discriminate.
        simpl in Hn. destruct (hex4 h1 h2 h3 h4); [|discriminate].
        destruct (parse_chars s) as [[str' r']|] eqn:E; [|discriminate].
        injection H as _ <-. apply IH in E; simpl; lia.
      * destruct (escape e); [|discriminate].
        destruct (parse_chars s) as [[str' r']|] eqn:E; [|discriminate].
        injection H as _ <-. apply IH in E; simpl; lia.
    + destruct (c <? 32); [discriminate|].
      destruct (parse_chars s) as [[str' r']|] eqn:E; [|discriminate].
      injection H as _ <-. apply IH in E; simpl; lia.
Qed.

Lemma parse_chars_consumes (s str r : jsstring) :
  parse_chars s = Some (str, r) -> (List.length r < List.length s)%nat.
Proof.
  intros H. eapply parse_chars_length; [apply Nat.le_refl | exact H].
Qed.

Lemma span_length (p : N -> bool) (s a b : jsstring) :
  span p s = (a, b) -> (List.length b <= List.length s)%nat.
Proof.
  revert a b. induction s as [|c r IH]; simpl; intros a b H.
  - injection H as _ <-. simpl. lia.
  - destruct (p c).
    + destruct (span p r) as [a' b'] eqn:E. injection H as _ <-.
      specialize (IH _ _ eq_refl). lia.
    + injection H as _ <-. simpl. lia.
Qed.

Lemma parse_int_length (s i r : jsstring) :
  parse_int s = Some (i, r) -> (List.length r < List.length s)%nat.
Proof.
  destruct s as [|d s]; simpl; [discriminate|].
  destruct (d =? 48).
  - intros H. injection H as _ <-. lia.
  - destruct (is_digit d); [|discriminate].
    destruct (span is_digit s) as [a b] eqn:E. intros H. injection H as _ <-.
    apply span_length in E. lia.
Qed.

Lemma digits1_length (s ds r : jsstring) :
  digits1 s = Some (ds, r) -> (List.length r <= List.length s)%nat.
Proof.
  unfold digits1. destruct (span is_digit s) as [a b] eqn:E.
  apply span_length in E. destruct a; [discriminate|].
  intros H. injection H as _ <-. exact E.
Qed.

Lemma parse_frac_length (s f r : jsstring) :
  parse_frac s = Some (f, r) -> (List.length r <= List.length s)%nat.
Proof.
  destruct s as [|c s]; simpl.
  - intros H. injection H as _ <-. simpl. lia.
  - destruct (c =? 46).
    + destruct (digits1 s) as [[ds r']|] eqn:E; [|discriminate].
      apply digits1_length in E. intros H. injection H as _ <-. lia.
    + intros H. injection H as _ <-. simpl. lia.
Qed.

Lemma exp_sign_length (s sign r : jsstring) :
  exp_sign s = (sign, r) -> (List.length r <= List.length s)%nat.
Proof.
  destruct s as [|g s]; simpl.
  - intros H. injection H as _ <-. simpl. lia.
  - destruct ((g =? 43) || (g =? 45)); intros H; injection H as _ <-; simpl; lia.
Qed.

Lemma parse_exp_length (s e r : jsstring) :
  parse_exp s = Some (e, r) -> (List.length r <= List.length s)%nat.
Proof.
  destruct s as [|c s]; simpl.
  - intros H. injection H as _ <-. simpl. lia.
  - destruct ((c =? 101) || (c =? 69)).
    + destruct (exp_sign s) as [sign r1] eqn:E1. apply exp_sign_length in E1.
      destruct (digits1 r1) as [[ds r']|] eqn:E2; [|discriminate].
      apply digits1_length in E2. intros H. injection H as _ <-. lia.
    + intros H. injection H as _ <-. simpl. lia.
Qed.

Lemma minus_sign_length (s sign r : jsstring) :
  minus_sign s = (sign, r) -> (List.length r <= List.length s)%nat.
Proof.
  destruct s as [|c s]; simpl.
  - intros H. injection H as _ <-. simpl. lia.
  - destruct (c =? 45); intros H; injection H as _ <-; simpl; lia.
Qed.

Lemma parse_number_length (s x r : jsstring) :
  parse_number s = Some (x, r) -> (List.length r < List.length s)%nat.
Proof.
  unfold parse_number.
  destruct (minus_sign s) as [sign s1] eqn:E0. apply minus_sign_length in E0.
  destruct (parse_int s1) as [[i s2]|] eqn:E1; [|discriminate].
  destruct (parse_frac s2) as [[f s3]|] eqn:E2; [|discriminate].
  destruct (parse_exp s3) as [[e s4]|] eqn:E3; [|discriminate].
  intros H. injection H as _ <-.
  apply parse_int_length in E1. apply parse_frac_length in E2.
  apply parse_exp_length in E3. lia.
Qed.

Lemma expect_length (lit s r : jsstring) :
  expect lit s = Some r -> (List.length r <= List.length s)%nat.
Proof.
  revert s. induction lit as [|a lit IH]; intros s; simpl.
  - intros H. injection H as <-. lia.
  - destruct s as [|b s]; [discriminate|]. destruct (a =? b); [|discriminate].
    intros H. apply IH in H. simpl. lia.
Qed.

End ParserFuel.

Section ParserTotal.

Lemma pmap_ok {A B} (g : A -> B) (p : presult A) (b : B) (r : jsstring) :
  pmap g p = POk b r -> exists a, p = POk a r /\ b = g a.
Proof.
  destruct p; simpl; intros H; try discriminate.
  injection H as <- <-. eauto.
Qed.

Lemma of_option_ok {A} (o : option (A * jsstring)) (a : A) (r : jsstring) :
  of_option o = POk a r -> o = Some (a, r).
Proof.
  destruct o as [[a' r']|]; simpl; intros H; [|discriminate].
  now injection H as <- <-.
Qed.

Lemma expect_ok {A} (a : A) (lit s : jsstring) (b : A) (r : jsstring) :
  of_option (option_map (pair a) (expect lit s)) = POk b r ->
  (List.length r <= List.length s)%nat.
Proof.
  destruct (expect lit s) as [r'|] eqn:E; simpl; intros H; [|discriminate].
  injection H as _ <-. now apply expect_length in E.
Qed.

Ltac len :=
  repeat match goal with
    | H : skip_ws ?s = _ :: _ |- _ => apply skip_ws_cons in H
    | H : parse_chars _ = Some _ |- _ => apply parse_chars_consumes in H
    | H : parse_number _ = Some _ |- _ => apply parse_number_length in H
    end;
  simpl List.length in *; try lia.

(** Every successful parse consumes input. *)
Lemma parse_consumes (f : nat) :
  (forall s v r, parse_value f s = POk v r -> (List.length r < List.length s)%nat)
  /\ (forall s l r, parse_elements f s = POk l r -> (List.length r < List.length s)%nat)
  /\ (forall s l r, parse_members f s = POk l r -> (List.length r < List.length s)%nat).
Proof.
  induction f as [|f [IHv [IHe IHm]]]; [repeat split; discriminate|].
  split; [|split]; intros s x r H;
    cbn [parse_value parse_elements parse_members] in H.
  - destruct (skip_ws s) as [|c r0] eqn:E; [discriminate|].
    destruct (c =? 91).
    { destruct (skip_ws r0) as [|c' r'] eqn:E2; [discriminate|].
      pose proof (skip_ws_length r0) as L. rewrite E2 in L.
      destruct (c' =? 93).
      - injection H as _ <-. len.
      - apply pmap_ok in H. destruct H as [l [H _]]. apply IHe in H. len. }
    destruct (c =? 123).
    { destruct (skip_ws r0) as [|c' r'] eqn:E2; [discriminate|].
      pose proof (skip_ws_length r0) as L. rewrite E2 in L.
      destruct (c' =? 125).
      - injection H as _ <-. len.
      - apply pmap_ok in H. destruct H as [l [H _]]. apply IHm in H. len. }
    destruct (c =? 34).
    { apply pmap_ok in H. destruct H as [str [H _]]. apply of_option_ok in H. len. }
    destruct (c =? 116); [apply expect_ok in H; len|].
    destruct (c =? 102); [apply expect_ok in H; len|].
    destruct (c =? 110); [apply expect_ok in H; len|].
    destruct ((c =? 45) || is_digit c); [|discriminate].
    apply pmap_ok in H. destruct H as [str [H _]]. apply of_option_ok in H. len.
  - destruct (parse_value f s) as [v rest| |] eqn:E; try discriminate.
    apply IHv in E.
    destruct (skip_ws rest) as [|c r0] eqn:E2; [discriminate|].
    destruct (c =? 44).
    + apply pmap_ok in H. destruct H as [l [H _]]. apply IHe in H. len.
    + destruct (c =? 93); [|discriminate]. injection H as _ <-. len.
  - destruct (skip_ws s) as [|q s1] eqn:E; [discriminate|].
    destruct (q =? 34); [|discriminate].
    destruct (parse_chars s1) as [[k s2]|] eqn:E1; [|discriminate].
    destruct (skip_ws s2) as [|colon s3] eqn:E2; [discriminate|].
    destruct (colon =? 58); [|discriminate].
    destruct (parse_value f s3) as [v rest| |] eqn:E3; try discriminate.
    apply IHv in E3.
    destruct (skip_ws rest) as [|c r0] eqn:E4; [discriminate|].
    destruct (c =? 44).
    + apply pmap_ok in H. destruct H as [l [H _]]. apply IHm in H. len.
    + destruct (c =? 125); [|discriminate]. injection H as _ <-. len.
Qed.

Lemma pmap_fuel {A B} (g : A -> B) (p : presult A) :
  pmap g p = PFuel -> p = PFuel.
Proof. destruct p; simpl; congruence. Qed.

Lemma of_option_fuel {A} (o : option (A * jsstring)) : of_option o <> PFuel.
Proof. destruct o as [[a r]|]; discriminate. Qed.

(** With more than twice the length of the input as fuel, no parser stops
    for lack of it. *)
Lemma parse_fuel (f : nat) :
  (forall s, (2 * List.length s < f)%nat -> parse_value f s <> PFuel)
  /\ (forall s, (2 * List.length s + 1 < f)%nat -> parse_elements f s <> PFuel)
  /\ (forall s, (2 * List.length s + 1 < f)%nat -> parse_members f s <> PFuel).
Proof.
  induction f as [|f [IHv [IHe IHm]]]; [repeat split; intros s H; lia|].
  destruct (parse_consumes f) as [Cv [Ce Cm]].
  split; [|split]; intros s L H;
    cbn [parse_value parse_elements parse_members] in H.
  - destruct (skip_ws s) as [|c r0] eqn:E; [discriminate|].
    destruct (c =? 91).
    { destruct (skip_ws r0) as [|c' r'] eqn:E2; [discriminate|].
      pose proof (skip_ws_length r0) as L2. rewrite E2 in L2.
      destruct (c' =? 93); [discriminate|].
      apply pmap_fuel in H. revert H. apply IHe. len. }
    destruct (c =? 123).
    { destruct (skip_ws r0) as [|c' r'] eqn:E2; [discriminate|].
      pose proof (skip_ws_length r0) as L2. rewrite E2 in L2.
      destruct (c' =? 125); [discriminate|].
      apply pmap_fuel in H. revert H. apply IHm. len. }
    destruct (c =? 34); [apply pmap_fuel in H; now apply of_option_fuel in H|].
    destruct (c =? 116); [now apply of_option_fuel in H|].
    destruct (c =? 102); [now apply of_option_fuel in H|].
    destruct (c =? 110); [now apply of_option_fuel in H|].
    destruct ((c =? 45) || is_digit c); [|discriminate].
    apply pmap_fuel in H. now apply of_option_fuel in H.
  - destruct (parse_value f s) as [v rest| |] eqn:E; try discriminate.
    + apply Cv in E.
      destruct (skip_ws rest) as [|c r0] eqn:E2; [discriminate|].
      destruct (c =? 44).
      * apply pmap_fuel in H. revert H. apply IHe. len.
      * destruct (c =? 93); discriminate.
    + revert E. apply IHv. lia.
  - destruct (skip_ws s) as [|q s1] eqn:E; [discriminate|].
    destruct (q =? 34); [|discriminate].
    destruct (parse_chars s1) as [[k s2]|] eqn:E1; [|discriminate].
    destruct (skip_ws s2) as [|colon s3] eqn:E2; [discriminate|].
    destruct (colon =? 58); [|discriminate].
    destruct (parse_value f s3) as [v rest| |] eqn:E3; try discriminate.
    + apply Cv in E3.
      destruct (skip_ws rest) as [|c r0] eqn:E4; [discriminate|].
      destruct (c =? 44).
      * apply pmap_fuel in H. revert H. apply IHm. len.
      * destruct (c =? 125); discriminate.
    + revert E3. apply IHv. len.
Qed.

(** [JSON_parse] decides: its fuel is never exhausted, so [None] is always a
    syntax error of the text. *)
Lemma fuel_enough (s : jsstring) : parse_value (fuel_for s) s <> PFuel.
Proof.
  apply (proj1 (parse_fuel (fuel_for s))). unfold fuel_for. lia.
Qed.

(** A text that opens with a left bracket parses to an array or not at
    all. *)
Lemma JSON_parse_bracket (s : jsstring) (v : json) :
  JSON_parse (91 :: s) = Some v -> exists l, v = JArray l.
Proof.
  unfold JSON_parse, fuel_for. cbn [parse_value skip_ws is_ws N.eqb orb Pos.eqb].
  destruct (skip_ws s) as [|c' r']; [discriminate|].
  destruct (c' =? 93).
  - destruct (skip_ws r'); [|discriminate]. intros H. injection H as <-. eauto.
  - destruct (parse_elements _ _) as [l rest| |]; simpl; try discriminate.
    destruct (skip_ws rest); [|discriminate]. intros H. injection H as <-. eauto.
Qed.

End ParserTotal.

(* ------------------------------------------------------------------ *)
(** *** Scaffold: extraction and parsing *)

Section Matching.

Lemma upto_last_none (c : N) (s : jsstring) : upto_last c s = None <-> ~ In c s.
Proof.
  induction s as [|x r IH]; simpl; [tauto|].
  destruct (upto_last c r) as [p|].
  - split; [discriminate|]. intros H. exfalso. apply H. right.
    destruct (in_dec N.eq_dec c r) as [Hin|Hin]; [exact Hin|].
    apply IH in Hin. discriminate.
  - destruct (N.eqb_spec x c) as [->|Hne].
    + split; [discriminate | tauto].
    + split; [|reflexivity]. intros _ [H|H]; [congruence|]. now apply IH.
Qed.

(** A match runs up to the last occurrence. *)
Lemma upto_last_some (c : N) (s p : jsstring) :
  upto_last c s = Some p ->
  exists b rest, p = b ++ [c] /\ s = p ++ rest /\ ~ In c rest.
Proof.
  revert p. induction s as [|x r IH]; simpl; intros p H; [discriminate|].
  destruct (upto_last c r) as [q|] eqn:E.
  - injection H as <-. destruct (IH q eq_refl) as [b [rest [-> [Hr Hn]]]].
    exists (x :: b), rest. repeat split; [now rewrite Hr at 1 | exact Hn].
  - destruct (N.eqb_spec x c) as [->|Hne]; [|discriminate].
    injection H as <-. exists [], r. repeat split. now apply upto_last_none.
Qed.

Lemma array_like_cons (x : N) (r : jsstring) :
  array_like (x :: r) <-> (x = 91 /\ In 93 r) \/ array_like r.
Proof.
  unfold array_like. split.
  - intros [[|y a] [b [c H]]]; simpl in H; injection H as -> ->.
    + left. split; [reflexivity|]. apply in_or_app. right. now left.
    + right. eauto.
  - intros [[-> H]|[a [b [c ->]]]].
    + apply in_split in H. destruct H as [b [c ->]]. now exists [], b, c.
    + now exists (x :: a), b, c.
Qed.

(** The pattern fails exactly on the texts with no bracketed substring. *)
Lemma match_array_none (text : jsstring) :
  match_array text = None <-> ~ array_like text.
Proof.
  induction text as [|x r IH].
  - simpl. split; [|reflexivity]. intros _ [[|y a] [b [c H]]]; discriminate.
  - rewrite array_like_cons. simpl.
    destruct (N.eqb_spec x 91) as [->|Hne].
    + destruct (upto_last 93 r) as [p|] eqn:E.
      * split; [discriminate|]. intros H. exfalso. apply H. left.
        split; [reflexivity|].
        destruct (in_dec N.eq_dec 93 r) as [Hin|Hin]; [exact Hin|].
        apply upto_last_none in Hin. congruence.
      * apply upto_last_none in E. rewrite IH. tauto.
    + rewrite IH. tauto.
Qed.

(** A match is the substring from the first left bracket to the last right
    bracket. *)
Lemma match_array_some (text m : jsstring) :
  match_array text = Some m ->
  exists a b c, text = a ++ m ++ c /\ m = 91 :: b ++ [93]
                /\ ~ In 91 a /\ ~ In 93 c.
Proof.
  revert m. induction text as [|x r IH]; simpl; intros m H; [discriminate|].
  assert (X : match_array r = Some m ->
              x <> 91 \/ ~ In 93 r ->
              exists a b c, x :: r = a ++ m ++ c /\ m = 91 :: b ++ [93]
                            /\ ~ In 91 a /\ ~ In 93 c).
  { intros Hm Hx. destruct (IH m Hm) as [a [b [c [-> [-> [Ha Hc]]]]]].
    destruct Hx as [Hx|Hx].
    - exists (x :: a), b, c. repeat split; [|exact Hc].
      intros [Hin|Hin]; [congruence | tauto].
    - exfalso. apply Hx. apply in_or_app. right. simpl. right.
      apply in_or_app. left. apply in_or_app. right. now left. }
  destruct (N.eqb_spec x 91) as [->|Hne].
  - destruct (upto_last 93 r) as [p|] eqn:E.
    + injection H as <-. apply upto_last_some in E.
      destruct E as [b [rest [-> [Hr Hn]]]].
      exists [], b, rest. simpl. repeat split; [now rewrite Hr at 1 | tauto | exact Hn].
    + apply X; [exact H|]. right. now apply upto_last_none.
  - apply X; [exact H | now left].
Qed.

Lemma first_split_unique (c : N) (a a' r r' : jsstring) :
  ~ In c a -> ~ In c a' -> a ++ c :: r = a' ++ c :: r' -> a = a' /\ r = r'.
Proof.
  revert a'. induction a as [|x a IH]; intros [|y a'] Ha Ha' H; simpl in H.
  - injection H as <-. auto.
  - injection H as <- _. exfalso. apply Ha'. now left.
  - injection H as -> _. exfalso. apply Ha. now left.
  - injection H as <- H.
    destruct (IH a' (fun X => Ha (or_intror X)) (fun X => Ha' (or_intror X)) H)
      as [-> ->].
    auto.
Qed.

Lemma last_split_unique (c : N) (b b' r r' : jsstring) :
  ~ In c r -> ~ In c r' -> b ++ c :: r = b' ++ c :: r' -> b = b' /\ r = r'.
Proof.
  revert b'. induction b as [|x b IH]; intros [|y b'] Hr Hr' H; simpl in H.
  - injection H as <-. auto.
  - injection H as <- H. exfalso. apply Hr. rewrite H.
    apply in_or_app. right. now left.
  - injection H as -> H. exfalso. apply Hr'. rewrite <- H.
    apply in_or_app. right. now left.
  - injection H as <- H. destruct (IH b' Hr Hr' H) as [-> ->]. auto.
Qed.

End Matching.

Section Scaffold.

(** The outcomes of scaffoldProject on a response text. *)
Lemma scaffoldProject_ok (text : jsstring) (v : json) :
  scaffoldProject (inr text) = inr v
  <-> exists m, match_array text = Some m /\ JSON_parse m = Some v.
Proof.
  unfold scaffoldProject, scaffold_try.
  destruct (match_array text) as [m|].
  - destruct (JSON_parse m) as [w|] eqn:E.
    + split.
      * intros H. injection H as <-. eauto.
      * intros [m' [Hm Hv]]. injection Hm as <-. congruence.
    + split; [discriminate|]. intros [m' [Hm Hv]]. injection Hm as <-. congruence.
  - split; [discriminate|]. intros [m' [Hm _]]. discriminate.
Qed.

Lemma scaffoldProject_error (text : jsstring) (e : exn) :
  scaffoldProject (inr text) = inl e -> e = scaffold_failure.
Proof.
  unfold scaffoldProject. destruct (scaffold_try text); intros H; [|discriminate].
  now injection H as <-.
Qed.


(** C4, as the code has it: scaffold does not check the parsed value against
    the Entry schema.  It returns a value exactly when the text has a
    bracketed substring and JSON.parse accepts the one from the first left
    bracket to the last right bracket; the value is then that parse result,
    an array whose elements are not inspected.  Otherwise it fails with its
    one fixed error. *)
Theorem scaffold_returns_parsed_array (text : jsstring) :
  (forall v, scaffoldProject (inr text) = inr v <->
             exists a b c, text = a ++ (91 :: b ++ [93]) ++ c
                           /\ ~ In 91 a /\ ~ In 93 c
                           /\ JSON_parse (91 :: b ++ [93]) = Some v)
  /\ (forall v, scaffoldProject (inr text) = inr v -> exists l, v = JArray l)
  /\ (scaffoldProject (inr text) = inl scaffold_failure <->
      ~ array_like text
      \/ exists m, match_array text = Some m /\ JSON_parse m = None)
  /\ (forall e, scaffoldProject (inr text) = inl e -> e = scaffold_failure).
Proof.
  split; [|split; [|split]].
  - intros v. rewrite scaffoldProject_ok. split.
    + intros [m [Hm Hv]]. destruct (match_array_some _ Hm) as [a [b [c [-> [-> [Ha Hc]]]]]].
      exists a, b, c. auto.
    + intros [a [b [c [-> [Ha [Hc Hv]]]]]]. exists (91 :: b ++ [93]). split; [|exact Hv].
      destruct (match_array (a ++ (91 :: b ++ [93]) ++ c)) as [m|] eqn:E.
      * destruct (match_array_some _ E) as [a' [b' [c' [Ht [-> [Ha' Hc']]]]]].
        simpl in Ht. rewrite <- !app_assoc in Ht.
        apply first_split_unique in Ht; [|assumption|assumption].
        destruct Ht as [_ Ht]. simpl in Ht.
        apply last_split_unique in Ht; [|assumption|assumption].
        destruct Ht as [-> _]. reflexivity.
      * apply match_array_none in E. exfalso. apply E. exists a, b, c.
        simpl. rewrite <- app_assoc. reflexivity.
  - intros v H. apply scaffoldProject_ok in H. destruct H as [m [Hm Hv]].
    destruct (match_array_some _ Hm) as [a [b [c [_ [-> _]]]]].
    exact (JSON_parse_bracket _ Hv).
  - unfold scaffoldProject, scaffold_try.
    destruct (match_array text) as [m|] eqn:E.
    + destruct (JSON_parse m) eqn:P.
      * split; [discriminate|]. intros [H|[m' [Hm Hp]]].
        -- apply match_array_none in H. congruence.
        -- congruence.
      * split; [|reflexivity]. intros _. right. eauto.
    + split; [|reflexivity]. intros _. left. now apply match_array_none.
  - apply scaffoldProject_error.
Qed.

(** C4 as stated fails: a response whose array holds a number and an object
    without the fields of an Entry is returned as it is. *)
Lemma scaffold_returns_unvalidated_values :
  scaffoldProject (inr (jq "Sure: [1, {'id': 7}]"))
  = inr (JArray [JNumber (js "1"); JObject [(js "id", JNumber (js "7"))]])
  /\ entries_schema (JArray [JNumber (js "1"); JObject [(js "id", JNumber (js "7"))]])
     = false
  /\ as_entries (JArray [JNumber (js "1"); JObject [(js "id", JNumber (js "7"))]])
     = None.
Proof.
  repeat split; vm_compute; reflexivity.
Qed.

End Scaffold.

(* ------------------------------------------------------------------ *)
(** *** Invariants of the transition system *)

Ltac break_match :=
  match goal with
  | |- context [match ?x with _ => _ end] =>
      lazymatch x with
      | context [match _ with _ => _ end] => fail
      | _ => destruct x eqn:?
      end
  end.

Ltac handler_cases := run_handler; repeat (break_match; cbn).

Section Invariants.

Lemma run_cons (ev : Event) (evs : list Event) (st : State) :
  run (ev :: evs) st = run evs (step ev st).
Proof. reflexivity. Qed.

Lemma step_keeps_entries (ev : Event) (st : State) :
  (List.length (entries st) <= List.length (entries (step ev st)))%nat.
Proof.
  unfold step. destruct ev; cbn [handler]; handler_cases;
    rewrite ?length_app, ?length_map; simpl; lia.
Qed.

Lemma step_extends_transcript (ev : Event) (st : State) :
  exists suffix, chatHistory (step ev st) = chatHistory st ++ suffix.
Proof.
  unfold step. destruct ev; cbn [handler]; handler_cases;
    try (exists []; now rewrite app_nil_r);
    eexists; rewrite <- app_assoc; reflexivity.
Qed.

Lemma step_clears_busy (ev : Event) (st : State) :
  isAiLoading st = false -> isAiLoading (step ev st) = false.
Proof.
  unfold step. intros H. destruct ev; cbn [handler]; handler_cases;
    solve [reflexivity | exact H].
Qed.

Lemma step_keeps_session (ev : Event) (st : State) (c : Chat) :
  chat st = Some c -> chat (step ev st) = Some c.
Proof.
  unfold step. intros H. destruct ev; cbn [handler]; handler_cases;
    solve [exact H | congruence].
Qed.

End Invariants.

Section Selection.

Lemma ids_after_edit (a c : jsstring) (l : list VibeEntry) :
  map id (map (fun e => if streq (id e) a
                        then mkEntry (id e) (name e) c (language e) (type e)
                        else e) l)
  = map id l.
Proof.
  rewrite map_map. apply map_ext. intros e. now destruct (streq (id e) a).
Qed.

Lemma id_after_overwrite (f : VibeEntry) (l : list VibeEntry) :
  existsb (fun e => streq (name e) (name f)) l = true ->
  In (id f) (map id (map (fun e => if streq (name e) (name f) then f else e) l)).
Proof.
  induction l as [|x l IH]; simpl; [discriminate|].
  destruct (streq (name x) (name f)); simpl; [now left|].
  intros H. right. now apply IH.
Qed.

Lemma step_keeps_active_valid (ev : Event) (st : State) :
  active_valid st ->
  match ev with Select i => In i (ids st) | _ => True end ->
  active_valid (step ev st).
Proof.
  unfold active_valid, ids, step. intros V S.
  destruct ev; cbn [handler]; run_handler.
  - exact S.
  - destruct (activeId st) as [[|x a]|] eqn:E; cbn; rewrite ?E; try exact V.
    now rewrite ids_after_edit.
  - destruct answer as [[|x n]|]; cbn; try exact V.
    destruct (existsb _ (entries st)); cbn; [exact V|].
    rewrite map_app. apply in_or_app. right. now left.
  - destruct answer as [[|x n]|]; cbn; try exact V.
    destruct (existsb _ (entries st)); cbn; [exact V|].
    rewrite map_app. apply in_or_app. right. now left.
  - destruct (existsb _ (entries st)) eqn:E; cbn.
    + destruct confirmed; cbn; [|exact V]. now apply id_after_overwrite.
    + rewrite map_app. apply in_or_app. right. now left.
  - destruct reply; [|destruct (chat st)]; exact V.
  - destruct mode, reply; cbn; try exact V;
      rewrite map_app; apply in_or_app; right; now left.
  - destruct outcome as [e|[|first rest]]; cbn; try exact V.
    + rewrite app_nil_r. exact V.
    + rewrite map_app. apply in_or_app. right. now left.
Qed.

(** X16: as long as every scaffold reply is an array of entries, as the
    events here have it, the selection stays null or the id of an entry
    through every run in which each selection picks an id that the collection
    holds at that moment.  (A reply that is not such an array can leave it
    dangling: [unchecked_scaffold_selection].) *)
Theorem run_keeps_active_valid (evs : list Event) (st : State) :
  active_valid st -> selects_offered evs st -> active_valid (run evs st).
Proof.
  revert st. induction evs as [|ev evs IH]; intros st V S; [exact V|].
  destruct S as [S1 S2]. rewrite run_cons. apply IH; [|exact S2].
  now apply step_keeps_active_valid.
Qed.

Lemma run_keeps_active_valid_witness :
  active_valid
    (run [NewFolder (Some (js "src")); Select (js "styles.css");
          AiAction ANALYZE (inr (js "ok")) 5; Edit (js "x")] startup).
Proof.
  apply run_keeps_active_valid.
  - vm_compute. auto.
  - vm_compute. auto 10.
Defined.

Lemma find_some_id (a : jsstring) (l : list VibeEntry) :
  find (fun e => streq (id e) a) l = None <-> ~ In a (map id l).
Proof.
  induction l as [|x l IH]; simpl; [tauto|].
  destruct (streq (id x) a) eqn:E.
  - apply streq_true in E. split; [discriminate | tauto].
  - rewrite IH. split; [|tauto]. intros H [H1|H1]; [|tauto].
    apply streq_true in H1. congruence.
Qed.

(** X9: selectEntry makes no existence check: after it the entry shown is the
    first entry that carries the chosen id, and none is shown exactly when
    no entry carries it. *)
Theorem select_shows_entry (i : jsstring) (st : State) :
  (activeEntry (step (Select i) st) = None <-> ~ In i (ids st))
  /\ (forall e, activeEntry (step (Select i) st) = Some e ->
        id e = i /\ In e (entries st))
  /\ entries (step (Select i) st) = entries st.
Proof.
  unfold activeEntry, step, ids. cbn. split; [apply find_some_id|]. split; [|reflexivity].
  intros e H. apply find_some in H. destruct H as [H1 H2].
  apply streq_true in H2. auto.
Qed.

End Selection.

Section Runs.

Lemma run_transcript_prefix (evs : list Event) (st : State) :
  exists suffix, chatHistory (run evs st) = chatHistory st ++ suffix.
Proof.
  revert st. induction evs as [|ev evs IH]; intros st.
  - exists []. now rewrite app_nil_r.
  - rewrite run_cons. destruct (IH (step ev st)) as [s2 H2].
    destruct (step_extends_transcript ev st) as [s1 H1].
    exists (s1 ++ s2). now rewrite H2, H1, app_assoc.
Qed.

(** X13: no run removes an entry: the collection never gets shorter. *)
Theorem run_never_removes_entries (evs : list Event) (st : State) :
  (List.length (entries st) <= List.length (entries (run evs st)))%nat.
Proof.
  revert st. induction evs as [|ev evs IH]; intros st; [apply Nat.le_refl|].
  rewrite run_cons. eapply Nat.le_trans; [apply step_keeps_entries | apply IH].
Qed.

(** X14: the transcript is append-only: after any run the earlier transcript is
    a prefix of the later one. *)
Theorem run_extends_transcript (evs : list Event) (st : State) :
  exists suffix, chatHistory (run evs st) = chatHistory st ++ suffix.
Proof.
  apply run_transcript_prefix.
Qed.

(** X15: from a state that is not busy, every run of settled intents ends not
    busy. *)
Theorem run_ends_not_busy (evs : list Event) (st : State) :
  isAiLoading st = false -> isAiLoading (run evs st) = false.
Proof.
  revert st. induction evs as [|ev evs IH]; intros st H; [exact H|].
  rewrite run_cons. apply IH. now apply step_clears_busy.
Qed.

Lemma run_ends_not_busy_witness :
  isAiLoading
    (run [Send (js "hi") (ChatSession 1) (inl (Rejected (js "offline")));
          Scaffold (inr []); AiAction REFACTOR (inr (js "ok")) 7] startup) = false.
Proof.
  apply run_ends_not_busy. reflexivity.
Defined.

(** X17: once a chat session is held, no run replaces or drops it. *)
Theorem run_keeps_session (evs : list Event) (st : State) (c : Chat) :
  chat st = Some c -> chat (run evs st) = Some c.
Proof.
  revert st. induction evs as [|ev evs IH]; intros st H; [exact H|].
  rewrite run_cons. apply IH. now apply step_keeps_session.
Qed.

Lemma run_keeps_session_witness :
  chat (run [Send (js "again") (ChatSession 2) (inr (js "hello"));
             Send (js "more") (ChatSession 3) (inl SyntaxError)]
          (step (Send (js "hi") (ChatSession 1) (inr (js "hey"))) startup))
  = Some (ChatSession 1).
Proof.
  apply run_keeps_session. reflexivity.
Defined.

(** X18: the session is created lazily by the first message that succeeds: a
    message keeps the session held; with none held it stores the new one on
    success and stores nothing on failure. *)
Theorem session_after_send (message : jsstring) (fresh : Chat)
    (reply : exn + jsstring) (st : State) :
  chat (step (Send message fresh reply) st)
  = match chat st, reply with
    | Some c, _ => Some c
    | None, inr _ => Some fresh
    | None, inl _ => None
    end.
Proof.
  unfold step. cbn [handler]. run_handler.
  destruct reply; destruct (chat st) eqn:E; cbn; congruence.
Qed.

(** X19: if a second message is sent before the first reply has arrived, both
    calls see no session and each creates one: whichever order the two
    replies settle in, the session held at the end is the one of the reply
    that settled last, which replaces the one stored by the other; the
    transcript holds the two user messages and then the replies in the order
    they settled, and the busy flag ends false. *)
Theorem overlapped_sends_replace_session (m1 m2 t1 t2 : jsstring)
    (fresh1 fresh2 : Chat) (second_first : bool) (st : State) :
  chat st = None ->
  let final := overlapped_sends m1 m2 fresh1 fresh2 (inr t1) (inr t2) second_first st in
  chat final = Some (if second_first then fresh1 else fresh2)
  /\ chatHistory final
     = chatHistory st ++ [mkMessage user m1; mkMessage user m2]
         ++ (if second_first then [mkMessage model t2; mkMessage model t1]
             else [mkMessage model t1; mkMessage model t2])
  /\ isAiLoading final = false.
Proof.
  intros H. cbv zeta. unfold overlapped_sends. run_handler. rewrite H.
  destruct second_first; cbn; repeat split; rewrite <- !app_assoc; reflexivity.
Qed.

Lemma overlapped_sends_replace_session_witness :
  chat (overlapped_sends (js "a") (js "b") (ChatSession 1) (ChatSession 2)
          (inr (js "A")) (inr (js "B")) true startup) = Some (ChatSession 1)
  /\ chat (overlapped_sends (js "a") (js "b") (ChatSession 1) (ChatSession 2)
            (inr (js "A")) (inr (js "B")) false startup) = Some (ChatSession 2).
Proof.
  split.
  - apply (overlapped_sends_replace_session (js "a") (js "b") (js "A") (js "B")
             (ChatSession 1) (ChatSession 2) true startup).
    reflexivity.
  - apply (overlapped_sends_replace_session (js "a") (js "b") (js "A") (js "B")
             (ChatSession 1) (ChatSession 2) false startup).
    reflexivity.
Defined.

(** X20: a reply lands at the end of the transcript of its moment: whatever other
    intents run between the send and the reply, the transcript is then the
    old one, the user message, what those intents appended, and last the
    reply or the fallback; the collection is not touched and the busy flag is
    cleared. *)
Theorem reply_lands_after_interleaving (m : jsstring) (evs : list Event)
    (outcome : exn + (Chat * jsstring)) (st : State) :
  let pending := run evs (exec (handleSendMessage_start m) st) in
  let settled := exec (handleSendMessage_resume (chat st) outcome) pending in
  (exists between,
     chatHistory settled
     = chatHistory st ++ [mkMessage user m] ++ between
         ++ [match outcome with
             | inr (_, text) => mkMessage model text
             | inl _ => fallbackMessage
             end])
  /\ entries settled = entries pending
  /\ activeId settled = activeId pending
  /\ isAiLoading settled = false.
Proof.
  cbv zeta.
  destruct (run_transcript_prefix evs (exec (handleSendMessage_start m) st))
    as [between H].
  change (chatHistory (exec (handleSendMessage_start m) st))
    with (chatHistory st ++ [mkMessage user m]) in H.
  remember (run evs (exec (handleSendMessage_start m) st)) as pending eqn:P.
  clear P. split.
  - exists between.
    destruct outcome as [e|[ci text]]; [|destruct (chat st)];
      run_handler; rewrite H, <- !app_assoc; reflexivity.
  - destruct outcome as [e|[ci text]]; [|destruct (chat st)]; repeat split.
Qed.

End Runs.

Section CreationRuns.

(** X1: createFolder guards on the id: through any sequence of createFolder
    calls, from any collection with unique ids, the ids stay unique. *)
Theorem createFolder_runs_keep_unique_ids (answers : list (option jsstring))
    (st : State) :
  unique_ids st -> unique_ids (run (map NewFolder answers) st).
Proof.
  revert st. induction answers as [|a answers IH]; intros st H; [exact H|].
  cbn [map]. rewrite run_cons. apply IH.
  now apply handleNewFolder_keeps_unique_ids.
Qed.

Lemma createFolder_runs_keep_unique_ids_witness :
  unique_ids (run (map NewFolder [Some (js "src"); Some (js "src/a"); None;
                                  Some (js "src"); Some (js "assets")]) startup).
Proof.
  apply createFolder_runs_keep_unique_ids.
  apply nodupb_spec. vm_compute. reflexivity.
Defined.

(** X2: createFile guards on the name: through any sequence of createFile calls,
    from a collection in which every entry has its name as id, the ids stay
    unique and every entry still has its name as id. *)
Theorem createFile_runs_keep_unique_ids (answers : list (option jsstring))
    (st : State) :
  (forall e, In e (entries st) -> id e = name e) ->
  unique_ids st ->
  unique_ids (run (map NewFile answers) st)
  /\ forall e, In e (entries (run (map NewFile answers) st)) -> id e = name e.
Proof.
  revert st. induction answers as [|a answers IH]; intros st Hn H; [now split|].
  cbn [map]. rewrite run_cons.
  destruct (handleNewFile_keeps_unique_ids a Hn H) as [H1 H2].
  now apply IH.
Qed.

Lemma createFile_runs_keep_unique_ids_witness :
  unique_ids (run (map NewFile [Some (js "a.js"); Some (js "a.js"); Some [];
                                Some (js "assets"); Some (js "b")]) startup).
Proof.
  apply createFile_runs_keep_unique_ids.
  - intros e H. vm_compute in H.
    repeat (destruct H as [H|H]; [subst e; reflexivity|]). destruct H.
  - apply nodupb_spec. vm_compute. reflexivity.
Defined.

(** X3: a createFolder whose path is already the id of an entry changes neither
    the collection nor the selection and shows the folder alert. *)
Theorem createFolder_rejects_existing_id (p : jsstring) (st : State) :
  p <> [] -> In p (ids st) ->
  entries (step (NewFolder (Some p)) st) = entries st
  /\ activeId (step (NewFolder (Some p)) st) = activeId st
  /\ alerts (step (NewFolder (Some p)) st)
     = alerts st ++ [js "A folder with that path already exists."].
Proof.
  intros Hp Hin. apply existsb_id in Hin. unfold step. cbn [handler]. run_handler.
  destruct p as [|c p]; [congruence|]. cbn. rewrite Hin. repeat split.
Qed.

Lemma createFolder_rejects_existing_id_witness :
  entries (step (NewFolder (Some (js "assets"))) startup) = entries startup.
Proof.
  apply (@createFolder_rejects_existing_id (js "assets") startup).
  - discriminate.
  - vm_compute. auto.
Defined.

(** X4: the display name of a new folder is the last segment of its path; it is
    the whole path when the path has no slash or ends in one. *)
Theorem createFolder_display_name (p : jsstring) (st : State) :
  p <> [] -> ~ In p (ids st) ->
  exists n,
    entries (step (NewFolder (Some p)) st) = entries st ++ [mkEntry p n [] [] folder]
    /\ activeId (step (NewFolder (Some p)) st) = Some p
    /\ (~ In 47 p -> n = p)
    /\ (forall a b, p = a ++ 47 :: b -> ~ In 47 b ->
          n = match b with [] => p | _ :: _ => b end).
Proof.
  intros Hp Hin. unfold ids in Hin.
  rewrite <- existsb_id in Hin. apply not_true_is_false in Hin.
  assert (T : truthy p = true) by (destruct p; [congruence | reflexivity]).
  exists (or_else (pop (split 47 p)) p).
  unfold step. cbn [handler]. run_handler. rewrite T, Hin.
  cbn [andb negb entries activeId id].
  split; [reflexivity|]. split; [reflexivity|]. split.
  - intros H. rewrite pop_split_no_sep by exact H. unfold or_else. now rewrite T.
  - intros a b E H. rewrite E. rewrite pop_split_after_last by exact H.
    now destruct b.
Qed.

Lemma createFolder_display_name_witness :
  exists n,
    entries (step (NewFolder (Some (js "src/components"))) startup)
    = entries startup ++ [mkEntry (js "src/components") n [] [] folder]
    /\ n = js "components".
Proof.
  destruct (@createFolder_display_name (js "src/components") startup)
    as [n [H1 [_ [_ H2]]]].
  - discriminate.
  - vm_compute. intros H. repeat (destruct H as [H|H]; [discriminate H|]). exact H.
  - exists n. split; [exact H1|].
    apply (H2 (js "src") (js "components")); [reflexivity|].
    vm_compute. intros H. repeat (destruct H as [H|H]; [discriminate H|]). exact H.
Defined.

(** X5: the language of a new file whose name has a dot is what follows the last
    dot, and text when nothing follows it. *)
Theorem createFile_extension (a b : jsstring) (st : State) :
  ~ In 46 b -> ~ In (a ++ 46 :: b) (names st) ->
  map language (entries (step (NewFile (Some (a ++ 46 :: b))) st))
  = map language (entries st) ++ [match b with [] => js "text" | _ :: _ => b end]
  /\ activeId (step (NewFile (Some (a ++ 46 :: b))) st) = Some (a ++ 46 :: b).
Proof.
  intros Hb Hn.
  assert (Hne : a ++ 46 :: b <> []) by (destruct a; discriminate).
  destruct (handleNewFile_created st Hne Hn) as [H1 [H2 _]].
  unfold step. cbn [handler]. unfold jsstring in *. rewrite H1, H2, map_app. cbn.
  now rewrite language_with_dot.
Qed.

Lemma createFile_extension_witness :
  map language (entries (step (NewFile (Some (js "app.test" ++ 46 :: js "tsx")))
                           emptyWorkspace))
  = [js "tsx"].
Proof.
  apply (@createFile_extension (js "app.test") (js "tsx") emptyWorkspace).
  - vm_compute. intros H. repeat (destruct H as [H|H]; [discriminate H|]). exact H.
  - intros [].
Defined.

End CreationRuns.

Section Uploads.

Variables (f : VibeEntry) (st : State).

Lemma find_app_last {A} (p : A -> bool) (l : list A) (x : A) :
  (forall e, In e l -> p e = false) -> p x = true -> find p (l ++ [x]) = Some x.
Proof.
  intros H Hx. induction l as [|y l IH]; simpl; [now rewrite Hx|].
  rewrite (H y) by now left. apply IH. intros e He. apply H. now right.
Qed.

Lemma find_after_overwrite (l : list VibeEntry) :
  ~ In (id f) (map id l) ->
  existsb (fun e => streq (name e) (name f)) l = true ->
  find (fun e => streq (id e) (id f))
    (map (fun e => if streq (name e) (name f) then f else e) l) = Some f.
Proof.
  induction l as [|x l IH]; simpl; [discriminate|]. intros Hn H.
  destruct (streq (name x) (name f)); simpl.
  - assert (E : streq (id f) (id f) = true) by now apply streq_true.
    now rewrite E.
  - destruct (streq (id x) (id f)) eqn:E.
    + apply streq_true in E. tauto.
    + apply IH; [tauto | exact H].
Qed.

Lemma names_after_overwrite (l : list VibeEntry) :
  map name (map (fun e => if streq (name e) (name f) then f else e) l) = map name l.
Proof.
  rewrite map_map. apply map_ext_in. intros e _.
  destruct (streq (name e) (name f)) eqn:E; [|reflexivity].
  apply streq_true in E. now rewrite E.
Qed.

(** X6: after an upload that is not declined, the entry shown is the uploaded
    one, provided no entry already carried its id; this holds for the append
    and for the overwrite. *)
Theorem upload_shows_file (confirmed : bool) :
  ~ In (id f) (ids st) ->
  (In (name f) (names st) -> confirmed = true) ->
  activeEntry (step (Upload f confirmed) st) = Some f.
Proof.
  unfold ids, names, activeEntry, step. intros Hid Hc. cbn [handler]. run_handler.
  destruct (existsb (fun e => streq (name e) (name f)) (entries st)) eqn:E; cbn.
  - rewrite Hc by now apply existsb_name. cbn. now apply find_after_overwrite.
  - apply find_app_last; [|now apply streq_true].
    intros e He. destruct (streq (id e) (id f)) eqn:X; [|reflexivity].
    apply streq_true in X. exfalso. apply Hid. rewrite <- X. now apply in_map.
Qed.

(** X7: an upload never duplicates a name: the list of names gains the uploaded
    name when it was unused and is otherwise exactly what it was, overwrite or
    not; so unique names stay unique. *)
Theorem upload_keeps_names (confirmed : bool) :
  (In (name f) (names st) -> names (step (Upload f confirmed) st) = names st)
  /\ (~ In (name f) (names st) ->
        names (step (Upload f confirmed) st) = names st ++ [name f])
  /\ (unique_names st -> unique_names (step (Upload f confirmed) st)).
Proof.
  assert (A : In (name f) (names st) ->
              names (step (Upload f confirmed) st) = names st).
  { unfold names, step. intros H. apply existsb_name in H. cbn [handler].
    run_handler. rewrite H. cbn. destruct confirmed; cbn; [|reflexivity].
    apply names_after_overwrite. }
  assert (B : ~ In (name f) (names st) ->
              names (step (Upload f confirmed) st) = names st ++ [name f]).
  { unfold names, step. intros H. rewrite <- existsb_name in H.
    apply not_true_is_false in H. cbn [handler]. run_handler. rewrite H. cbn.
    now rewrite map_app. }
  split; [exact A|]. split; [exact B|].
  unfold unique_names. intros U.
  destruct (in_dec (list_eq_dec N.eq_dec) (name f) (names st)) as [H|H].
  - now rewrite A.
  - rewrite B by exact H. apply NoDup_snoc. now split.
Qed.

(** X8: a confirmed overwrite replaces, in place, every entry that has the
    uploaded name and leaves the others where they are; a declined one
    leaves the whole state as it was. *)
Theorem upload_overwrites_in_place :
  In (name f) (names st) ->
  step (Upload f false) st = st
  /\ activeId (step (Upload f true) st) = Some (id f)
  /\ List.length (entries (step (Upload f true) st)) = List.length (entries st)
  /\ forall i e, nth_error (entries st) i = Some e ->
       (name e = name f -> nth_error (entries (step (Upload f true) st)) i = Some f)
       /\ (name e <> name f -> nth_error (entries (step (Upload f true) st)) i = Some e).
Proof.
  unfold names, step. intros H. apply existsb_name in H. cbn [handler].
  run_handler. rewrite H. cbn. split; [now destruct st|].
  split; [reflexivity|]. split; [apply length_map|].
  intros i e Hi. rewrite nth_error_map, Hi. cbn. split; intros X.
  - apply streq_true in X. now rewrite X.
  - destruct (streq (name e) (name f)) eqn:E; [|reflexivity].
    apply streq_true in E. contradiction.
Qed.

End Uploads.

Lemma upload_shows_file_witness :
  activeEntry (step (Upload (mkEntry (js "up/styles.css") (js "styles.css")
                               (js "body {}") (js "css") file) true) startup)
  = Some (mkEntry (js "up/styles.css") (js "styles.css") (js "body {}") (js "css") file).
Proof.
  apply upload_shows_file.
  - vm_compute. intros H. repeat (destruct H as [H|H]; [discriminate H|]). exact H.
  - reflexivity.
Defined.

Lemma upload_keeps_names_witness :
  unique_names (step (Upload (mkEntry (js "up/styles.css") (js "styles.css")
                                (js "body {}") (js "css") file) true) startup).
Proof.
  apply upload_keeps_names. apply nodupb_spec. vm_compute. reflexivity.
Defined.

Lemma upload_overwrites_in_place_witness :
  step (Upload (mkEntry (js "up/styles.css") (js "styles.css")
                  (js "body {}") (js "css") file) false) startup = startup.
Proof.
  apply upload_overwrites_in_place. vm_compute. auto.
Defined.

Section Edits.

Variable st : State.



(** X11: of two edits in a row only the second shows: the first leaves no
    trace. *)
Theorem edit_twice (c1 c2 : jsstring) :
  step (Edit c2) (step (Edit c1) st) = step (Edit c2) st.
Proof.
  unfold step. cbn [handler]. run_handler.
  destruct (activeId st) as [[|x a]|] eqn:E; cbn; rewrite ?E; cbn; try reflexivity.
  f_equal. rewrite map_map. apply map_ext. intros e.
  destruct (streq (id e) (x :: a)) eqn:X; cbn; now rewrite X.
Qed.

End Edits.


Section Ids.

Variable st : State.

(** X21: two AI results produced at different clock readings get different ids:
    from a collection with unique ids that holds neither id, the ids are
    still unique after both. *)
Theorem ai_results_at_distinct_ticks (m1 m2 : AIMode) (r1 r2 : jsstring) (t1 t2 : N) :
  t1 <> t2 -> unique_ids st ->
  ~ In (ai_response_id t1) (ids st) -> ~ In (ai_response_id t2) (ids st) ->
  ids (run [AiAction m1 (inr r1) t1; AiAction m2 (inr r2) t2] st)
  = ids st ++ [ai_response_id t1; ai_response_id t2]
  /\ unique_ids (run [AiAction m1 (inr r1) t1; AiAction m2 (inr r2) t2] st).
Proof.
  intros Ht U H1 H2.
  assert (E : ids (run [AiAction m1 (inr r1) t1; AiAction m2 (inr r2) t2] st)
              = ids st ++ [ai_response_id t1; ai_response_id t2]).
  { unfold ids. destruct m1, m2; cbn; rewrite !map_app, <- app_assoc; reflexivity. }
  split; [exact E|]. unfold unique_ids. rewrite E.
  apply NoDup_app; [exact U | |].
  - constructor; [|constructor; [intros []|constructor]].
    intros [X|[]]. apply ai_response_id_inj in X. congruence.
  - intros i Hi [<-|[<-|[]]]; tauto.
Qed.

End Ids.

Lemma ai_results_at_distinct_ticks_witness :
  unique_ids (run [AiAction ANALYZE (inr (js "a")) 1700000000000;
                   AiAction REFACTOR (inr (js "b")) 1700000000001] startup).
Proof.
  apply ai_results_at_distinct_ticks.
  - discriminate.
  - apply nodupb_spec. vm_compute. reflexivity.
  - vm_compute. intros H. repeat (destruct H as [H|H]; [discriminate H|]). exact H.
  - vm_compute. intros H. repeat (destruct H as [H|H]; [discriminate H|]). exact H.
Defined.

(* ------------------------------------------------------------------ *)
(** *** Text after the array *)

Section ParserSuffix.

Variable x : jsstring.

Lemma skip_ws_app (s : jsstring) (c : N) (r : jsstring) :
  skip_ws s = c :: r -> skip_ws (s ++ x) = c :: r ++ x.
Proof.
  induction s as [|d s IH]; simpl; [discriminate|].
  destruct (is_ws d); [exact IH|]. intros H. injection H as -> ->. reflexivity.
Qed.

Lemma parse_chars_app (n : nat) :
  forall s str r, (List.length s <= n)%nat ->
    parse_chars s = Some (str, r) -> parse_chars (s ++ x) = Some (str, r ++ x).
Proof.
  induction n as [|n IH]; intros s str r Hn H.
  - destruct s; [discriminate | simpl in Hn; lia].
  - destruct s as [|c s]; [discriminate|]. simpl in Hn. simpl in H. simpl.
    destruct (c =? 34).
    { now injection H as <- <-. }
    destruct (c =? 92).
    + destruct s as [|e s]; [discriminate|]. simpl in Hn. simpl.
      destruct (e =? 117).
      * destruct s as [|h1 [|h2 [|h3 [|h4 s]]]]; try discriminate.
        simpl in Hn. simpl. destruct (hex4 h1 h2 h3 h4); [|discriminate].
        destruct (parse_chars s) as [[str' r']|] eqn:E; [|discriminate].
        injection H as <- <-. rewrite (IH s str' r') by (assumption || lia).
        reflexivity.
      * destruct (escape e); [|discriminate].
        destruct (parse_chars s) as [[str' r']|] eqn:E; [|discriminate].
        injection H as <- <-. rewrite (IH s str' r') by (assumption || lia).
        reflexivity.
    + destruct (c <? 32); [discriminate|].
      destruct (parse_chars s) as [[str' r']|] eqn:E; [|discriminate].
      injection H as <- <-. rewrite (IH s str' r') by (assumption || lia).
      reflexivity.
Qed.

Lemma expect_app (lit s r : jsstring) :
  expect lit s = Some r -> expect lit (s ++ x) = Some (r ++ x).
Proof.
  revert s. induction lit as [|a lit IH]; intros s; simpl.
  - intros H. now injection H as <-.
  - destruct s as [|b s]; [discriminate|]. simpl.
    destruct (a =? b); [apply IH | discriminate].
Qed.

Lemma span_app (p : N -> bool) (s a b : jsstring) :
  span p s = (a, b) -> b <> [] -> span p (s ++ x) = (a, b ++ x).
Proof.
  revert a b. induction s as [|c r IH]; simpl; intros a b H Hb.
  - injection H as _ <-. congruence.
  - destruct (p c).
    + destruct (span p r) as [a' b'] eqn:E. injection H as <- <-.
      now rewrite (IH a' b' eq_refl Hb).
    + now injection H as <- <-.
Qed.

Lemma digits1_app (s ds r : jsstring) :
  digits1 s = Some (ds, r) -> r <> [] -> digits1 (s ++ x) = Some (ds, r ++ x).
Proof.
  unfold digits1. destruct (span is_digit s) as [a b] eqn:E.
  destruct a; [discriminate|]. intros H Hr. injection H as <- <-.
  now rewrite (span_app _ _ E Hr).
Qed.

Lemma nonempty_length (s : jsstring) : s <> [] <-> (0 < List.length s)%nat.
Proof. destruct s; simpl; split; (congruence || lia). Qed.

Lemma parse_number_app (s n r : jsstring) :
  parse_number s = Some (n, r) -> r <> [] ->
  parse_number (s ++ x) = Some (n, r ++ x).
Proof.
  unfold parse_number.
  destruct (minus_sign s) as [sign s1] eqn:E0.
  destruct (parse_int s1) as [[i s2]|] eqn:E1; [|discriminate].
  destruct (parse_frac s2) as [[f s3]|] eqn:E2; [|discriminate].
  destruct (parse_exp s3) as [[e s4]|] eqn:E3; [|discriminate].
  intros H Hr. injection H as <- <-.
  pose proof (parse_exp_length _ E3) as L3.
  pose proof (parse_frac_length _ E2) as L2.
  apply nonempty_length in Hr.
  assert (H3 : s3 <> []) by (apply nonempty_length; lia).
  assert (H2 : s2 <> []) by (apply nonempty_length; lia).
  assert (M : minus_sign (s ++ x) = (sign, s1 ++ x)).
  { destruct s as [|c s]; simpl in E0 |- *.
    - injection E0 as _ <-. discriminate.
    - destruct (c =? 45); now injection E0 as <- <-. }
  assert (I : parse_int (s1 ++ x) = Some (i, s2 ++ x)).
  { destruct s1 as [|d s1]; simpl in E1 |- *; [discriminate|].
    destruct (d =? 48); [now injection E1 as <- <-|].
    destruct (is_digit d); [|discriminate].
    destruct (span is_digit s1) as [a b] eqn:E. injection E1 as <- <-.
    now rewrite (span_app _ _ E H2). }
  assert (F : parse_frac (s2 ++ x) = Some (f, s3 ++ x)).
  { destruct s2 as [|c s2]; simpl in E2 |- *; [congruence|].
    destruct (c =? 46).
    - destruct (digits1 s2) as [[ds r']|] eqn:E; [|discriminate].
      injection E2 as <- <-. now rewrite (digits1_app _ E H3).
    - now injection E2 as <- <-. }
  assert (X : parse_exp (s3 ++ x) = Some (e, s4 ++ x)).
  { destruct s3 as [|c s3]; simpl in E3 |- *; [congruence|].
    destruct ((c =? 101) || (c =? 69)).
    - destruct (exp_sign s3) as [sg r1] eqn:E.
      destruct (digits1 r1) as [[ds r']|] eqn:D; [|discriminate].
      injection E3 as <- <-.
      assert (G : exp_sign (s3 ++ x) = (sg, r1 ++ x)).
      { destruct s3 as [|g s3]; simpl in E |- *.
        - injection E as _ <-. discriminate.
        - destruct ((g =? 43) || (g =? 45)); now injection E as <- <-. }
      rewrite G. assert (R : r' <> []) by (apply nonempty_length; exact Hr).
      now rewrite (digits1_app _ D R).
    - now injection E3 as <- <-. }
  now rewrite M, I, F, X.
Qed.

End ParserSuffix.

Section ParserStable.

Variable x : jsstring.

Lemma parse_chars_suffix (s str r : jsstring) :
  parse_chars s = Some (str, r) -> parse_chars (s ++ x) = Some (str, r ++ x).
Proof.
  intros H. eapply parse_chars_app; [apply Nat.le_refl | exact H].
Qed.

Lemma skip_ws_nonempty (s : jsstring) (c : N) (r : jsstring) :
  skip_ws s = c :: r -> s <> [].
Proof. destruct s; [discriminate | congruence]. Qed.

Ltac through_ws E :=
  match type of E with
  | skip_ws ?s = _ => rewrite (skip_ws_app x s E)
  end;
  cbn [parse_value parse_elements parse_members].

(** A successful parse is not changed by more fuel nor by text put after the
    input, except that a number at the very end of the input could go on. *)
Lemma parse_stable (f : nat) :
  (forall f' s v r, (f <= f')%nat -> parse_value f s = POk v r ->
     r <> [] \/ (forall n, v <> JNumber n) ->
     parse_value f' (s ++ x) = POk v (r ++ x))
  /\ (forall f' s l r, (f <= f')%nat -> parse_elements f s = POk l r ->
        parse_elements f' (s ++ x) = POk l (r ++ x))
  /\ (forall f' s l r, (f <= f')%nat -> parse_members f s = POk l r ->
        parse_members f' (s ++ x) = POk l (r ++ x)).
Proof.
  induction f as [|f [IHv [IHe IHm]]]; [repeat split; discriminate|].
  split; [|split]; intros [|f'] s v r L H; try lia;
    cbn [parse_value parse_elements parse_members] in H |- *.
  - intros C.
    destruct (skip_ws s) as [|c r0] eqn:E; [discriminate|]. through_ws E.
    destruct (c =? 91).
    { destruct (skip_ws r0) as [|c' r'] eqn:E2; [discriminate|]. through_ws E2.
      destruct (c' =? 93); [now injection H as <- <-|].
      apply pmap_ok in H. destruct H as [l [H ->]].
      pose proof (IHe f' _ _ _ ltac:(lia) H) as Q. cbn [app] in Q. now rewrite Q. }
    destruct (c =? 123).
    { destruct (skip_ws r0) as [|c' r'] eqn:E2; [discriminate|]. through_ws E2.
      destruct (c' =? 125); [now injection H as <- <-|].
      apply pmap_ok in H. destruct H as [l [H ->]].
      pose proof (IHm f' _ _ _ ltac:(lia) H) as Q. cbn [app] in Q. now rewrite Q. }
    destruct (c =? 34).
    { apply pmap_ok in H. destruct H as [str [H ->]]. apply of_option_ok in H.
      now rewrite (parse_chars_suffix _ H). }
    destruct (c =? 116).
    { destruct (expect (js "rue") r0) as [r1|] eqn:X; [|discriminate].
      cbn in H. injection H as <- <-. now rewrite (expect_app x _ _ X). }
    destruct (c =? 102).
    { destruct (expect (js "alse") r0) as [r1|] eqn:X; [|discriminate].
      cbn in H. injection H as <- <-. now rewrite (expect_app x _ _ X). }
    destruct (c =? 110).
    { destruct (expect (js "ull") r0) as [r1|] eqn:X; [|discriminate].
      cbn in H. injection H as <- <-. now rewrite (expect_app x _ _ X). }
    destruct ((c =? 45) || is_digit c); [|discriminate].
    apply pmap_ok in H. destruct H as [n [H ->]]. apply of_option_ok in H.
    destruct C as [C|C]; [|now elim (C n)].
    pose proof (parse_number_app x _ H C) as Q. cbn [app] in Q. now rewrite Q.
  - destruct (parse_value f s) as [w rest| |] eqn:E; try discriminate.
    destruct (skip_ws rest) as [|c r0] eqn:E2; [discriminate|].
    rewrite (IHv f' _ _ _ ltac:(lia) E (or_introl (skip_ws_nonempty E2))).
    through_ws E2.
    destruct (c =? 44).
    + apply pmap_ok in H. destruct H as [l [H ->]].
      now rewrite (IHe f' _ _ _ ltac:(lia) H).
    + destruct (c =? 93); [|discriminate]. now injection H as <- <-.
  - destruct (skip_ws s) as [|q s1] eqn:E; [discriminate|]. through_ws E.
    destruct (q =? 34); [|discriminate].
    destruct (parse_chars s1) as [[k s2]|] eqn:E1; [|discriminate].
    rewrite (parse_chars_suffix _ E1).
    destruct (skip_ws s2) as [|colon s3] eqn:E2; [discriminate|]. through_ws E2.
    destruct (colon =? 58); [|discriminate].
    destruct (parse_value f s3) as [w rest| |] eqn:E3; try discriminate.
    destruct (skip_ws rest) as [|c r0] eqn:E4; [discriminate|].
    rewrite (IHv f' _ _ _ ltac:(lia) E3 (or_introl (skip_ws_nonempty E4))).
    through_ws E4.
    destruct (c =? 44).
    + apply pmap_ok in H. destruct H as [l [H ->]].
      now rewrite (IHm f' _ _ _ ltac:(lia) H).
    + destruct (c =? 125); [|discriminate]. now injection H as <- <-.
Qed.

End ParserStable.

Section TrailingText.

Lemma upto_last_span (c : N) (b rest : jsstring) :
  ~ In c rest -> upto_last c (b ++ c :: rest) = Some (b ++ [c]).
Proof.
  intros H. induction b as [|y b IH]; simpl.
  - apply upto_last_none in H. now rewrite H, N.eqb_refl.
  - now rewrite IH.
Qed.

Lemma match_array_span (a b c : jsstring) :
  ~ In 91 a -> ~ In 93 c ->
  match_array (a ++ 91 :: b ++ 93 :: c) = Some (91 :: b ++ [93]).
Proof.
  intros Ha Hc. induction a as [|y a IH]; simpl.
  - now rewrite upto_last_span.
  - destruct (N.eqb_spec y 91) as [->|_]; [exfalso; apply Ha; now left|].
    apply IH. intros H. apply Ha. now right.
Qed.

Lemma in_split_last (c : N) (l : jsstring) :
  In c l -> exists l1 l2, l = l1 ++ c :: l2 /\ ~ In c l2.
Proof.
  intros H. destruct (upto_last c l) as [p|] eqn:E.
  - apply upto_last_some in E. destruct E as [b [rest [-> [Hl Hn]]]].
    exists b, rest. split; [|exact Hn]. now rewrite Hl at 1; rewrite <- app_assoc.
  - apply upto_last_none in E. contradiction.
Qed.

Lemma skip_ws_all (s y : jsstring) : skip_ws s = [] -> skip_ws (s ++ y) = skip_ws y.
Proof.
  induction s as [|d s IH]; simpl; [reflexivity|].
  destruct (is_ws d); [exact IH | discriminate].
Qed.

Lemma skip_ws_bracket (s : jsstring) : skip_ws (s ++ [93]) <> [].
Proof.
  induction s as [|d s IH]; simpl; [discriminate|].
  destruct (is_ws d); [exact IH | discriminate].
Qed.

(** Text after a valid array spoils it when it holds a right bracket. *)
Lemma JSON_parse_trailing (body y : jsstring) (v : json) :
  JSON_parse (91 :: body) = Some v ->
  JSON_parse ((91 :: body) ++ y ++ [93]) = None.
Proof.
  intros H. destruct (JSON_parse_bracket _ H) as [l ->].
  unfold JSON_parse in *.
  destruct (parse_value (fuel_for (91 :: body)) (91 :: body)) as [w rest| |] eqn:E;
    try discriminate.
  destruct (skip_ws rest) eqn:W; [|discriminate]. injection H as ->.
  assert (L : Nat.le (fuel_for (91 :: body)) (fuel_for ((91 :: body) ++ y ++ [93]))).
  { unfold fuel_for. rewrite length_app. lia. }
  rewrite (proj1 (parse_stable (y ++ [93]) _) _ _ _ _ L E)
    by (right; discriminate).
  rewrite (@skip_ws_all rest (y ++ [93]) W).
  destruct (skip_ws (y ++ [93])) eqn:X; [|reflexivity].
  now apply skip_ws_bracket in X.
Qed.

(** X23: the match is greedy: when a valid array stands right after prose without
    a left bracket, and the text after the array holds a right bracket
    anywhere, the match runs on to the last such bracket and scaffold fails,
    although the array by itself is valid JSON. *)
Theorem scaffold_fails_on_bracket_after_array (a body c : jsstring) (v : json) :
  ~ In 91 a -> JSON_parse (91 :: body) = Some v -> In 93 c ->
  scaffoldProject (inr (a ++ (91 :: body) ++ c)) = inl scaffold_failure.
Proof.
  intros Ha Hv Hc.
  apply in_split_last in Hc. destruct Hc as [c1 [c2 [-> Hc2]]].
  unfold scaffoldProject, scaffold_try.
  replace (a ++ (91 :: body) ++ c1 ++ 93 :: c2)
    with (a ++ 91 :: (body ++ c1) ++ 93 :: c2)
    by (simpl; now rewrite <- app_assoc).
  rewrite match_array_span by assumption.
  replace (91 :: (body ++ c1) ++ [93]) with ((91 :: body) ++ c1 ++ [93])
    by (simpl; now rewrite <- app_assoc).
  now rewrite (JSON_parse_trailing _ _ Hv).
Qed.

End TrailingText.

Lemma scaffold_fails_on_bracket_after_array_witness :
  scaffoldProject
    (inr (js "Files: " ++ (91 :: jq "{'id':'a','name':'a','content':'','language':'','type':'folder'}]")
            ++ js " (see [docs])"))
  = inl scaffold_failure.
Proof.
  apply (@scaffold_fails_on_bracket_after_array (js "Files: ")
           (jq "{'id':'a','name':'a','content':'','language':'','type':'folder'}]")
           (js " (see [docs])")
           (JArray [JObject [(js "id", JString (js "a")); (js "name", JString (js "a"));
                             (js "content", JString []); (js "language", JString []);
                             (js "type", JString (js "folder"))]])).
  - vm_compute. intros H. repeat (destruct H as [H|H]; [discriminate H|]). exact H.
  - vm_compute. reflexivity.
  - vm_compute. auto 20.
Defined.

Section Names.

Lemma names_after_edit (a c : jsstring) (l : list VibeEntry) :
  map name (map (fun e => if streq (id e) a
                          then mkEntry (id e) (name e) c (language e) (type e)
                          else e) l)
  = map name l.
Proof.
  rewrite map_map. apply map_ext. intros e. now destruct (streq (id e) a).
Qed.

Lemma step_keeps_unique_names (ev : Event) (st : State) :
  guards_name ev = true -> unique_names st -> unique_names (step ev st).
Proof.
  unfold unique_names, names, step. intros G U.
  destruct ev; try discriminate G; cbn [handler]; run_handler.
  - exact U.
  - destruct (activeId st) as [[|x a]|]; cbn; try exact U.
    now rewrite names_after_edit.
  - destruct answer as [[|x n]|]; cbn; try exact U.
    destruct (existsb _ (entries st)) eqn:E; cbn; [exact U|].
    rewrite map_app. apply NoDup_snoc. split; [exact U|]. cbn.
    rewrite <- existsb_name, E. discriminate.
  - destruct (existsb _ (entries st)) eqn:E; cbn.
    + destruct confirmed; cbn; [|exact U]. now rewrite names_after_overwrite.
    + rewrite map_app. apply NoDup_snoc. split; [exact U|]. cbn.
      rewrite <- existsb_name, E. discriminate.
  - destruct reply; [|destruct (chat st)]; exact U.
Qed.

(** X24: createFile and upload test the name before they insert: through any run
    without createFolder, AI results and scaffolds, unique names stay
    unique. *)
Theorem run_keeps_unique_names (evs : list Event) (st : State) :
  forallb guards_name evs = true -> unique_names st -> unique_names (run evs st).
Proof.
  revert st. induction evs as [|ev evs IH]; intros st G U; [exact U|].
  cbn in G. apply andb_true_iff in G. destruct G as [G1 G2].
  rewrite run_cons. apply IH; [exact G2|]. now apply step_keeps_unique_names.
Qed.

End Names.

Lemma run_keeps_unique_names_witness :
  unique_names
    (run [NewFile (Some (js "a.js")); NewFile (Some (js "assets"));
          Upload (mkEntry (js "up/a.js") (js "a.js") (js "x") (js "js") file) true;
          Edit (js "y"); Select (js "assets")] startup).
Proof.
  apply run_keeps_unique_names; [reflexivity|].
  apply nodupb_spec. vm_compute. reflexivity.
Defined.

Section ScaffoldErrors.




End ScaffoldErrors.

(* ------------------------------------------------------------------ *)
(** *** The collection at run time *)

Ltac run_unchecked :=
  cbv beta iota delta
    [Unchecked.exec Unchecked.outcome_of Unchecked.try_finally Unchecked.try_catch
     Unchecked.bind Unchecked.await Unchecked.throw Unchecked.ret Unchecked.read
     Unchecked.setEntries Unchecked.setActiveId Unchecked.setIsAiLoading
     Unchecked.setIsScaffoldModalOpen Unchecked.alert
     Unchecked.handleNewFile Unchecked.handleNewFolder Unchecked.handleFileUpload
     Unchecked.handleScaffold Unchecked.handleScaffold_start
     Unchecked.handleScaffold_resume Unchecked.runScaffold fst snd];
  cbn [Unchecked.entries Unchecked.activeId Unchecked.chatHistory
       Unchecked.isAiLoading Unchecked.chat Unchecked.isScaffoldModalOpen
       Unchecked.alerts].

Section UncheckedReplies.

Import Unchecked.

Lemma scaffoldProject_returns_array (response : exn + jsstring) (v : json) :
  scaffoldProject response = inr v -> exists l, v = JArray l.
Proof.
  destruct response as [e|text]; [discriminate|]. intros H.
  apply scaffoldProject_ok in H. destruct H as [m [Hm Hv]].
  destruct (match_array_some _ Hm) as [a [b [c [_ [-> _]]]]].
  exact (JSON_parse_bracket _ Hv).
Qed.

(** X22: runScaffold takes the reply as it was parsed.  For every response of
    the service the handler lets no exception escape and clears the busy
    flag.  When scaffoldProject fails, the collection, the active id and the
    dialog stay as they were and the alert is shown.  When it succeeds, its
    value is an array; the dialog is closed and every element is appended, in
    order and unchecked.  If the first element is null, reading its id throws
    inside the handler: the alert is shown and the active id stays as it was,
    although the elements are already appended.  Otherwise the active id
    becomes the id member of the first element, and undefined when the
    element is not an object or has no such member. *)
Theorem scaffold_appends_unchecked (response : exn + jsstring) (st : Unchecked.State) :
  let st' := Unchecked.exec (runScaffold response) st in
  let failed :=
    Unchecked.alerts st
      ++ [js "An error occurred during scaffolding. Please check the console."] in
  outcome_of (runScaffold response) st = None
  /\ Unchecked.isAiLoading st' = false
  /\ Unchecked.chatHistory st' = Unchecked.chatHistory st
  /\ match scaffoldProject response with
     | inl _ =>
         Unchecked.entries st' = Unchecked.entries st
         /\ Unchecked.activeId st' = Unchecked.activeId st
         /\ Unchecked.isScaffoldModalOpen st' = Unchecked.isScaffoldModalOpen st
         /\ Unchecked.alerts st' = failed
     | inr v =>
         v = JArray (elements v)
         /\ Unchecked.entries st' = Unchecked.entries st ++ map Parsed (elements v)
         /\ Unchecked.isScaffoldModalOpen st' = false
         /\ match elements v with
            | [] =>
                Unchecked.activeId st' = Unchecked.activeId st
                /\ Unchecked.alerts st' = Unchecked.alerts st
            | JNull :: _ =>
                Unchecked.activeId st' = Unchecked.activeId st
                /\ Unchecked.alerts st' = failed
            | JObject m :: _ =>
                Unchecked.activeId st'
                = match get_member (js "id") m with
                  | Some w => Val w
                  | None => Undefined
                  end
                /\ Unchecked.alerts st' = Unchecked.alerts st
            | _ :: _ =>
                Unchecked.activeId st' = Undefined
                /\ Unchecked.alerts st' = Unchecked.alerts st
            end
     end.
Proof.
  cbv zeta. unfold runScaffold.
  destruct (scaffoldProject response) as [e|v] eqn:E; [repeat split|].
  destruct (scaffoldProject_returns_array _ E) as [l ->]. cbn [elements].
  destruct l as [|[ | | | | | ] rest]; repeat split.
Qed.



Lemma map_replace_null (f : VibeEntry) (items : list Item) :
  In (Parsed JNull) items -> map_replace f items = None.
Proof.
  induction items as [|it items IH]; [intros []|]. intros [->|H]; [reflexivity|].
  cbn [map_replace]. destruct (get_name it); [reflexivity|]. now rewrite IH.
Qed.

Lemma some_equal_null (get : Item -> Read) (s : jsstring) (pre post : list Item) :
  get (Parsed JNull) = Throws ->
  some_equal get s pre = Some false ->
  some_equal get s (pre ++ Parsed JNull :: post) = None.
Proof.
  intros G. induction pre as [|it pre IH]; cbn [some_equal app]; intros H.
  - now rewrite G.
  - destruct (get it); [discriminate|]. destruct (is_string s v); [discriminate|].
    now apply IH.
Qed.

Lemma some_equal_found (get : Item -> Read) (s : jsstring) (pre post : list Item) :
  some_equal get s pre = Some true -> some_equal get s (pre ++ post) = Some true.
Proof.
  induction pre as [|it pre IH]; cbn [some_equal app]; intros H; [discriminate|].
  destruct (get it); [discriminate|]. destruct (is_string s v); [reflexivity|].
  now apply IH.
Qed.

(** X12: the synchronous handlers are not guarded against what a scaffold
    left in the collection.  With a null among the elements and no match
    before it, createFile, createFolder and upload throw a TypeError when
    their search reaches it, and a confirmed overwrite throws wherever the
    null stands; in each case the state is left as it was. *)
Theorem null_element_breaks_creation (pre post : list Item) (st : Unchecked.State)
    (n : jsstring) (f : VibeEntry) :
  Unchecked.entries st = pre ++ Parsed JNull :: post ->
  n <> [] ->
  (some_equal get_name n pre = Some false ->
     outcome_of (Unchecked.handleNewFile (Some n)) st = Some TypeError
     /\ Unchecked.exec (Unchecked.handleNewFile (Some n)) st = st)
  /\ (some_equal get_id n pre = Some false ->
        outcome_of (Unchecked.handleNewFolder (Some n)) st = Some TypeError
        /\ Unchecked.exec (Unchecked.handleNewFolder (Some n)) st = st)
  /\ (some_equal get_name (name f) pre = Some false ->
        forall confirmed,
          outcome_of (Unchecked.handleFileUpload f confirmed) st = Some TypeError
          /\ Unchecked.exec (Unchecked.handleFileUpload f confirmed) st = st)
  /\ (some_equal get_name (name f) pre = Some true ->
        outcome_of (Unchecked.handleFileUpload f true) st = Some TypeError
        /\ Unchecked.exec (Unchecked.handleFileUpload f true) st = st).
Proof.
  intros E Hn.
  assert (T : truthy n = true) by (destruct n; [congruence | reflexivity]).
  split; [|split; [|split]]; intros H; [| |intros confirmed|]; run_unchecked;
    rewrite E, ?T.
  - rewrite (some_equal_null _ _ _ post eq_refl H). now split.
  - rewrite (some_equal_null _ _ _ post eq_refl H). now split.
  - rewrite (some_equal_null _ _ _ post eq_refl H). now split.
  - rewrite (some_equal_found _ _ _ (Parsed JNull :: post) H).
    rewrite map_replace_null by (apply in_or_app; right; now left). now split.
Qed.

Lemma null_element_breaks_creation_witness :
  outcome_of (Unchecked.handleNewFile (Some (js "new.js")))
    (Unchecked.exec (Unchecked.handleScaffold (inr [JNull])) (embed startup))
  = Some TypeError.
Proof.
  refine (proj1 (proj1 (@null_element_breaks_creation
           (map Typed initialEntries) []
           (Unchecked.exec (Unchecked.handleScaffold (inr [JNull])) (embed startup))
           (js "new.js") (mkEntry [] [] [] [] file) eq_refl _) _)).
  - discriminate.
  - vm_compute. reflexivity.
Defined.

End UncheckedReplies.

Section Refinement.

Import Unchecked.

Lemma some_equal_typed_name (n : jsstring) (es : list VibeEntry) :
  some_equal get_name n (map Typed es)
  = Some (existsb (fun e => streq (name e) n) es).
Proof.
  induction es as [|e es IH]; [reflexivity|]. cbn.
  destruct (streq (name e) n); [reflexivity | exact IH].
Qed.

Lemma some_equal_typed_id (n : jsstring) (es : list VibeEntry) :
  some_equal get_id n (map Typed es)
  = Some (existsb (fun e => streq (id e) n) es).
Proof.
  induction es as [|e es IH]; [reflexivity|]. cbn.
  destruct (streq (id e) n); [reflexivity | exact IH].
Qed.

Lemma map_replace_typed (f : VibeEntry) (es : list VibeEntry) :
  map_replace f (map Typed es)
  = Some (map Typed (map (fun e => if streq (name e) (name f) then f else e) es)).
Proof.
  induction es as [|e es IH]; [reflexivity|]. cbn. rewrite IH.
  now destruct (streq (name e) (name f)).
Qed.

(** X25: on a collection that holds only entries, createFile, createFolder
    and upload at run time do exactly what they do in the typed model, and
    throw nothing: their guards meet only strings. *)
Theorem typed_handlers_refine (st : App.State) :
  (forall answer,
     Unchecked.exec (Unchecked.handleNewFile answer) (embed st)
     = embed (App.exec (App.handleNewFile answer) st)
     /\ outcome_of (Unchecked.handleNewFile answer) (embed st) = None)
  /\ (forall answer,
        Unchecked.exec (Unchecked.handleNewFolder answer) (embed st)
        = embed (App.exec (App.handleNewFolder answer) st)
        /\ outcome_of (Unchecked.handleNewFolder answer) (embed st) = None)
  /\ (forall f confirmed,
        Unchecked.exec (Unchecked.handleFileUpload f confirmed) (embed st)
        = embed (App.exec (App.handleFileUpload f confirmed) st)
        /\ outcome_of (Unchecked.handleFileUpload f confirmed) (embed st) = None).
Proof.
  split; [|split].
  - intros [[|c n]|]; [split; reflexivity | | split; reflexivity].
    run_unchecked. run_handler. unfold embed. cbn [Unchecked.entries].
    rewrite some_equal_typed_name. cbn [truthy andb].
    destruct (existsb _ (App.entries st)); cbn; rewrite ?map_app;
      split; reflexivity.
  - intros [[|c n]|]; [split; reflexivity | | split; reflexivity].
    run_unchecked. run_handler. unfold embed. cbn [Unchecked.entries].
    rewrite some_equal_typed_id. cbn [truthy andb].
    destruct (existsb _ (App.entries st)); cbn; rewrite ?map_app;
      split; reflexivity.
  - intros f confirmed.
    run_unchecked. run_handler. unfold embed. cbn [Unchecked.entries].
    rewrite some_equal_typed_name.
    destruct (existsb _ (App.entries st)); cbn.
    + destruct confirmed; cbn; [|split; reflexivity].
      rewrite map_replace_typed. cbn. split; reflexivity.
    + rewrite ?map_app; split; reflexivity.
Qed.

Lemma as_string_some (o : option json) (s : jsstring) :
  as_string o = Some s -> o = Some (JString s).
Proof.
  destruct o as [[]|]; simpl; intros H; try discriminate. now injection H as ->.
Qed.

Lemma as_VibeEntry_reads (v : json) (e : VibeEntry) :
  as_VibeEntry v = Some e ->
  exists m, v = JObject m
            /\ get_member (js "id") m = Some (JString (id e))
            /\ get_member (js "name") m = Some (JString (name e)).
Proof.
  destruct v; try discriminate. unfold as_VibeEntry.
  destruct (as_string (get_member (js "id") members)) as [i|] eqn:Ei; [|discriminate].
  destruct (as_string (get_member (js "name") members)) as [n|] eqn:En;
    [|discriminate].
  destruct (as_string (get_member (js "content") members)); [|discriminate].
  destruct (as_string (get_member (js "language") members)); [|discriminate].
  destruct (as_EntryType (get_member (js "type") members)); [|discriminate].
  intros H. injection H as <-. exists members.
  apply as_string_some in Ei. apply as_string_some in En. auto.
Qed.

Lemma view_conforming (l : list json) (es : list VibeEntry) :
  as_all l = Some es -> map view (map Parsed l) = map Typed es.
Proof.
  revert es. induction l as [|v l IH]; intros es H.
  - now injection H as <-.
  - cbn in H. destruct (as_VibeEntry v) as [e|] eqn:E; [|discriminate].
    destruct (as_all l) as [es'|]; [|discriminate]. injection H as <-.
    cbn. rewrite E. now rewrite (IH es' eq_refl).
Qed.

Lemma view_typed (es : list VibeEntry) : map view (map Typed es) = map Typed es.
Proof. rewrite map_map. reflexivity. Qed.

(** X27: the typed scaffold handler is the handler at run time on the
    replies that are arrays of entries.  A parsed element with the shape of
    an entry reads as that entry does; and when every element of the reply
    has that shape, the handler at run time leaves, element for element, the
    collection the typed handler leaves, with the same active id, flags,
    transcript and alerts, and throws nothing. *)
Theorem conforming_reply_refines (l : list json) (es : list VibeEntry)
    (st : App.State) :
  as_all l = Some es ->
  let raw := Unchecked.exec (Unchecked.handleScaffold (inr l)) (embed st) in
  let typed := embed (App.exec (App.handleScaffold (inr es)) st) in
  outcome_of (Unchecked.handleScaffold (inr l)) (embed st) = None
  /\ map view (Unchecked.entries raw) = Unchecked.entries typed
  /\ Unchecked.activeId raw = Unchecked.activeId typed
  /\ Unchecked.isAiLoading raw = Unchecked.isAiLoading typed
  /\ Unchecked.isScaffoldModalOpen raw = Unchecked.isScaffoldModalOpen typed
  /\ Unchecked.chatHistory raw = Unchecked.chatHistory typed
  /\ Unchecked.alerts raw = Unchecked.alerts typed
  /\ (forall v e, as_VibeEntry v = Some e ->
        get_id (Parsed v) = get_id (Typed e)
        /\ get_name (Parsed v) = get_name (Typed e)).
Proof.
  intros H. cbv zeta.
  assert (R : forall v e, as_VibeEntry v = Some e ->
                get_id (Parsed v) = get_id (Typed e)
                /\ get_name (Parsed v) = get_name (Typed e)).
  { intros v e E. apply as_VibeEntry_reads in E.
    destruct E as [m [-> [Hi Hn]]]. unfold get_id, get_name, member.
    now rewrite Hi, Hn. }
  assert (E : map view (Unchecked.entries
                          (Unchecked.exec (Unchecked.handleScaffold (inr l)) (embed st)))
              = map Typed (App.entries st ++ es)).
  { replace (Unchecked.entries
               (Unchecked.exec (Unchecked.handleScaffold (inr l)) (embed st)))
      with (map Typed (App.entries st) ++ map Parsed l)
      by (destruct l as [|[ | | | | | ] rest]; reflexivity).
    now rewrite !map_app, view_typed, (view_conforming _ H). }
  destruct l as [|first rest].
  - injection H as <-. repeat split; try exact E; try (apply R; assumption).
  - cbn in H. destruct (as_VibeEntry first) as [e|] eqn:F; [|discriminate].
    destruct (as_all rest) as [es'|]; [|discriminate]. injection H as <-.
    destruct (R first e F) as [Ri _]. apply as_VibeEntry_reads in F.
    destruct F as [m [-> [Hi Hn]]].
    split; [reflexivity|]. split; [exact E|].
    split; [run_unchecked; rewrite Ri; reflexivity|].
    repeat split; apply R; assumption.
Qed.

Lemma conforming_reply_refines_witness :
  Unchecked.activeId
    (Unchecked.exec
       (Unchecked.handleScaffold
          (inr [JObject [(js "id", JString (js "a")); (js "name", JString (js "a"));
                         (js "content", JString []); (js "language", JString []);
                         (js "type", JString (js "folder"))]]))
       (embed startup))
  = Val (JString (js "a")).
Proof.
  refine (proj1 (proj2 (proj2 (@conforming_reply_refines _
            [mkEntry (js "a") (js "a") [] [] folder] startup _)))).
  reflexivity.
Defined.

End Refinement.
